(** * camphr.models: resolution of an NLP pipeline configuration

    A shallow embedding of [src/camphr/models.py].  The configuration is an
    OmegaConf structured config: a [DictConfig] is an insertion-ordered
    mapping whose item lookup ([d[k]], [d.k]) yields [None] for a key that is
    not there instead of raising, and whose [get(k, default)] yields
    [default] for such a key.  Every function of the module mutates the
    config it is given and returns it; here each function takes the config
    and returns the new one, or the exception it raises.

    The resolution chain is embedded on configs every stage of which has a
    settings mapping whose values are stored as they are ([NLPConfig.t]).
    The pass that reads the settings of every advanced-backend stage,
    [_complement_trf_name], is moreover embedded on all that OmegaConf may
    hold under a stage name and under a key, a stage with nothing under
    its name and an interpolation included ([Nodes]); on the configs of
    the chain the two embeddings of the pass agree. *)

From Stdlib Require Import List String Ascii Bool Arith ZArith Lia.
From Stdlib Require Import DecimalString.
Import ListNotations.
Local Open Scope string_scope.
Local Open Scope list_scope.

Set Implicit Arguments.

(** ** Python values *)

(** What a settings bag may hold: YAML scalars, lists and nested mappings. *)
#[local] Unset Elimination Schemes.
Inductive value : Type :=
| VNone
| VBool (b : bool)
| VInt (z : Z)
| VStr (s : string)
| VList (xs : list value)
| VDict (kvs : list (string * value)).
#[local] Set Elimination Schemes.

(** Python's truth test, [bool(v)]. *)
Definition truthy (v : value) : bool :=
  match v with
  | VNone => false
  | VBool b => b
  | VInt z => negb (Z.eqb z 0)
  | VStr s => negb (String.eqb s EmptyString)
  | VList xs => match xs with [] => false | _ :: _ => true end
  | VDict kvs => match kvs with [] => false | _ :: _ => true end
  end.

(** ** Exceptions *)

Inductive exn : Type :=
| ValueError (msg : string)
| KeyError (key : string)
| TypeError (msg : string)
| Raised (what : string).

Inductive result (A : Type) : Type :=
| Ok (a : A)
| Err (e : exn).
Arguments Ok {A} a.
Arguments Err {A} e.

Definition bind {A B : Type} (m : result A) (f : A -> result B) : result B :=
  match m with
  | Ok a => f a
  | Err e => Err e
  end.

Notation "x <- m ;; k" := (bind m (fun x => k))
  (at level 61, m at next level, right associativity).

(** ** Ordered mappings *)

(** A Python [dict] (and a [DictConfig]) keeps its keys in insertion
    order, each key once. *)
Definition dict (V : Type) : Type := list (string * V).

Section Dict.
Variable V : Type.

Definition keys (d : dict V) : list string := map fst d.

(** [d.get(k)]: the entry under [k], if any. *)
Fixpoint dict_get (d : dict V) (k : string) : option V :=
  match d with
  | [] => None
  | (k', v) :: d' => if String.eqb k k' then Some v else dict_get d' k
  end.

(** [d.get(k, default)]. *)
Definition get_default (d : dict V) (k : string) (default : V) : V :=
  match dict_get d k with
  | Some v => v
  | None => default
  end.

(** [d[k] = v]: an existing key keeps its place, a new one goes last. *)
Fixpoint dict_set (d : dict V) (k : string) (v : V) : dict V :=
  match d with
  | [] => [(k, v)]
  | (k', v') :: d' =>
      if String.eqb k k' then (k', v) :: d' else (k', v') :: dict_set d' k v
  end.

(** [{k: f(k) for k in names}]. *)
Definition dict_comprehension (f : string -> V) (names : list string)
  : dict V :=
  fold_left (fun d k => dict_set d k (f k)) names [].

(** The representation invariant of a mapping. *)
Definition wf_dict (d : dict V) : Prop := NoDup (keys d).
End Dict.

(** ** Lists of names *)

(** [k in names]. *)
Definition contains (names : list string) (k : string) : bool :=
  existsb (String.eqb k) names.

(** [names.index(k)]; [None] where Python raises [ValueError]. *)
Fixpoint index (names : list string) (k : string) : option nat :=
  match names with
  | [] => None
  | k' :: names' =>
      if String.eqb k k' then Some 0
      else match index names' k with
           | Some i => Some (S i)
           | None => None
           end
  end.

(** [names.insert(i, k)]: past the end, Python appends. *)
Definition insert (i : nat) (k : string) (names : list string) : list string :=
  firstn i names ++ k :: skipn i names.

(** [min(l)] of a non-empty list, given as head and tail. *)
Definition list_min (i : nat) (l : list nat) : nat := fold_left Nat.min l i.

(** The names of a list are pairwise different. *)
Fixpoint distinct (names : list string) : bool :=
  match names with
  | [] => true
  | k :: names' => negb (contains names' k) && distinct names'
  end.

(** [set(a) & set(b)] is non-empty. *)
Definition intersects (a b : list string) : bool :=
  existsb (contains b) a.

(** ** The configuration *)

(** A stage's settings: the [DictConfig] under its name in [pipeline], a
    key-value bag that may be empty, each value stored as it is.  A stage
    with no node at all under its name (YAML null) is not a value of this
    type, nor is a value that OmegaConf reads through another key (an
    interpolation); [Nodes.Stage] has both. *)
Definition Settings : Type := dict value.

(** [cfg.pipeline]: stage name to settings, in pipeline order. *)
Definition Pipeline : Type := dict Settings.

(** [v[k]] on a [DictConfig] of values stored as they are: [None] for a
    key that is not there.  [Nodes.getitem] is the access on any stage,
    with the exceptions it may raise. *)
Definition getitem (v : Settings) (k : string) : value :=
  get_default v k VNone.

(** [bool(v)] of a [DictConfig]: it has an entry. *)
Definition nonempty (v : Settings) : bool :=
  match v with
  | [] => false
  | _ :: _ => true
  end.

Module LangConfig.
Record t : Type := mk {
  name : string;
  torch : bool;
  optimizer : dict value;
  kwargs : option (dict value)
}.
End LangConfig.

Module NLPConfig.
Record t : Type := mk {
  name : value;
  lang : LangConfig.t;
  pipeline : Pipeline
}.
End NLPConfig.

Import NLPConfig.

(** [cfg.pipeline = p]. *)
Definition set_pipeline (cfg : NLPConfig.t) (p : Pipeline) : NLPConfig.t :=
  NLPConfig.mk (NLPConfig.name cfg) (lang cfg) p.

(** [cfg.lang.torch = b]. *)
Definition set_torch (cfg : NLPConfig.t) (b : bool) : NLPConfig.t :=
  NLPConfig.mk (NLPConfig.name cfg)
    (LangConfig.mk (LangConfig.name (lang cfg)) b
       (LangConfig.optimizer (lang cfg)) (LangConfig.kwargs (lang cfg)))
    (pipeline cfg).

(** [KEY], the settings key of the shared identifier, a local constant of
    [_complement_trf_name]. *)
Definition KEY : string := "trf_name_or_path".

(** The header of the [ValueError] of [_complement_trf_name]. *)
Definition missing_name_header : string :=
  ("Invalid configuration. At least one of transformer's pipe needs `"
   ++ KEY ++ "`, but the configuration is:"
   ++ String (ascii_of_nat 10) EmptyString)%string.

(** Modelled from the spec: [camphr.pipelines.trf_utils.LABELS], the
    settings key of a task stage's labels, is not under src; the spec's
    external interface names it [pipeline.<stage-name>.labels]. *)
Definition LABELS : string := "labels".

(** ** Language-host construction *)

(** The host that [create_lang] builds, as the constructor call it ends
    with: [TorchLanguage(Vocab(), optimizer_config=..., **kwargs)] or
    [spacy.blank(name, **kwargs)].  What the constructor makes of its
    arguments is the framework's. *)
Inductive Language : Type :=
| TorchLanguage (optimizer_config : dict value) (kwargs : dict value)
| blank (name : string) (kwargs : dict value).

(** [rv.update(d)] for a mapping [d]. *)
Definition dict_update (V : Type) (rv d : dict V) : dict V :=
  fold_left (fun rv kv => dict_set rv (fst kv) (snd kv)) d rv.

(** [cytoolz.merge(a, b)]: a new dict, updated with [a] and then with [b].
    The module only hands it a literal dict for [b]; an [a] that is not a
    mapping is an error of [update]. *)
Definition merge (a : value) (b : dict value) : result (dict value) :=
  match a with
  | VDict a => Ok (dict_update (dict_update [] a) b)
  | _ => Err (TypeError "update")
  end.

(** [cfg.kwargs or {}], as the plain dict [to_container] makes of it. *)
Definition kwargs_or_empty (cfg : LangConfig.t) : dict value :=
  match LangConfig.kwargs cfg with
  | Some kw => if nonempty kw then kw else []
  | None => []
  end.

Definition create_lang (cfg : LangConfig.t) : result Language :=
  let kwargs := kwargs_or_empty cfg in
  if LangConfig.torch cfg then
    meta <- merge (get_default kwargs "meta" (VDict []))
                  [("lang", VStr (LangConfig.name cfg))] ;;
    let kwargs := dict_set kwargs "meta" (VDict meta) in
    Ok (TorchLanguage (LangConfig.optimizer cfg) kwargs)
  else Ok (blank (LangConfig.name cfg) kwargs).

(** ** The pipeline host *)

(** The host [create_model] returns, by what [create_model] did to it: the
    constructor call that made it, the stages attached to it, first to
    last, and the name stored under [_meta["name"]], if one was. *)
Module Host.
Record t (Pipe : Type) : Type := mk {
  language : Language;
  pipeline : list Pipe;
  meta_name : option string
}.
End Host.

(** [nlp.add_pipe(pipe)], with no position given: the stage goes last. *)
Definition add_pipe (Pipe : Type) (nlp : Host.t Pipe) (pipe : Pipe)
  : Host.t Pipe :=
  Host.mk (Host.language nlp) (Host.pipeline nlp ++ [pipe])
    (Host.meta_name nlp).

(** [nlp._meta["name"] = name]. *)
Definition set_meta_name (Pipe : Type) (nlp : Host.t Pipe) (name : string)
  : Host.t Pipe :=
  Host.mk (Host.language nlp) (Host.pipeline nlp) (Some name).

(** ** The imports, for running the module *)

Module Camphr.

(** Modelled from the spec: the names of the four advanced-backend
    stages, which [camphr.pipelines] defines; the docstring of
    [_correct_trf_pipeline] spells three of them. *)
Definition TRANSFORMERS_TOKENIZER : string := "transformers_tokenizer".
Definition TRANSFORMERS_MODEL : string := "transformers_model".
Definition TRANSFORMERS_SEQ_CLASSIFIER : string :=
  "transformers_sequence_classifier".
Definition TRANSFORMERS_NER : string := "transformers_ner".

(** Modelled from the spec: [camphr.utils.get_labels], the label-loading
    routine, returns an inline list as it is; a reference to an external
    label resource is the collaborator's to read and fails here. *)
Definition get_labels (v : value) : result value :=
  match v with
  | VList xs => Ok (VList xs)
  | _ => Err (Raised "label resource")
  end.

Fixpoint biluo (labels : list value) : result (list value) :=
  match labels with
  | [] => Ok []
  | VStr l :: rest =>
      r <- biluo rest ;;
      Ok (VStr ("B-" ++ l)%string :: VStr ("I-" ++ l)%string
            :: VStr ("L-" ++ l)%string :: VStr ("U-" ++ l)%string :: r)
  | _ :: _ => Err (Raised "label")
  end.

(** Modelled from the spec: [camphr.ner_labels.utils.get_biluo_labels],
    the begin/in/last/unit variants of each base label, and the outside
    tag. *)
Definition get_biluo_labels (v : value) : result value :=
  match v with
  | VList xs => r <- biluo xs ;; Ok (VList (VStr "O" :: r))
  | _ => Err (Raised "label resource")
  end.

Definition join (sep : string) (parts : list string) : string :=
  match parts with
  | [] => EmptyString
  | p :: ps => fold_left (fun acc q => (acc ++ sep ++ q)%string) ps p
  end.

Fixpoint show (v : value) : string :=
  match v with
  | VNone => "null"
  | VBool true => "true"
  | VBool false => "false"
  | VInt z => NilZero.string_of_int (Z.to_int z)
  | VStr s => s
  | VList xs => ("[" ++ join ", " (map show xs) ++ "]")%string
  | VDict kvs =>
      ("{" ++ join ", "
                (map (fun kv => let '(k, x) := kv in k ++ ": " ++ show x) kvs)
           ++ "}")%string
  end.

(** Modelled from the spec: a rendering of the pipeline configuration,
    which OmegaConf's [pretty()] gives as YAML; here in flow style. *)
Definition pretty (p : Pipeline) : string :=
  show (VDict (map (fun kv => (fst kv, VDict (snd kv))) p)).

(** Modelled from the spec: the host's factory, [nlp.create_pipe], which
    makes a named stage from its settings; here the stage is the name and
    the settings it was made from. *)
Definition create_pipe (nlp : Host.t (string * dict value)) (name : string)
    (config : dict value) : result (string * dict value) :=
  Ok (name, config).

End Camphr.

(** ** Configurations to run the module on *)

Module Examples.
Import Camphr.

Definition en : LangConfig.t := LangConfig.mk "en" false [] None.

(** A sentencizer and a token labeler, both base stages missing. *)
Definition ner_only : NLPConfig.t :=
  NLPConfig.mk (VStr "ner") en
    [("sentencizer", [("punct_chars", VList [VStr "."])]);
     (TRANSFORMERS_NER,
      [(KEY, VStr "bert-base-cased");
       (LABELS, VList [VStr "PERSON"; VStr "LOC"])])].

(** What resolution makes of [ner_only]. *)
Definition ner_only_resolved : NLPConfig.t :=
  NLPConfig.mk (VStr "ner") (LangConfig.mk "en" true [] None)
    [("sentencizer", [("punct_chars", VList [VStr "."])]);
     (TRANSFORMERS_TOKENIZER, [(KEY, VStr "bert-base-cased")]);
     (TRANSFORMERS_MODEL, [(KEY, VStr "bert-base-cased")]);
     (TRANSFORMERS_NER,
      [(KEY, VStr "bert-base-cased");
       (LABELS,
        VList [VStr "O";
               VStr "B-PERSON"; VStr "I-PERSON"; VStr "L-PERSON";
               VStr "U-PERSON";
               VStr "B-LOC"; VStr "I-LOC"; VStr "L-LOC"; VStr "U-LOC"])])].

(** A token labeler with both base stages given, the base model after it. *)
Definition complete : NLPConfig.t :=
  NLPConfig.mk VNone en
    [(TRANSFORMERS_TOKENIZER, []);
     (TRANSFORMERS_NER, [(LABELS, VList [VStr "PERSON"])]);
     (TRANSFORMERS_MODEL, [(KEY, VStr "bert-base-cased")])].

(** The tokenizer and the classifier declare different identifiers, the
    base model has no entry for the key. *)
Definition two_names : NLPConfig.t :=
  NLPConfig.mk VNone en
    [(TRANSFORMERS_TOKENIZER, [(KEY, VStr "xlnet-base-cased")]);
     (TRANSFORMERS_MODEL, []);
     (TRANSFORMERS_SEQ_CLASSIFIER,
      [(KEY, VStr "bert-base-cased");
       (LABELS, VList [VStr "pos"; VStr "neg"])]);
     ("sentencizer", [])].

(** Advanced-backend stages, and no identifier. *)
Definition no_name : NLPConfig.t :=
  NLPConfig.mk VNone en
    [(TRANSFORMERS_MODEL, []);
     (TRANSFORMERS_NER, [(LABELS, VList [VStr "PERSON"])])].

(** A torch language whose kwargs carry a [meta] with entries. *)
Definition torch_lang : LangConfig.t :=
  LangConfig.mk "ja" true [("lr", VStr "2e-5")]
    (Some [("meta", VDict [("author", VStr "camphr"); ("lang", VStr "xx")]);
           ("max_length", VInt 512)]).

(** A pipeline of the plain backend alone, with a name. *)
Definition plain : NLPConfig.t :=
  NLPConfig.mk (VStr "sents")
    (LangConfig.mk "en" false [] (Some [("max_length", VInt 1000)]))
    [("sentencizer", [("punct_chars", VList [VStr "."])]);
     ("tagger", [])].

(** What propagation makes of [two_names]. *)
Definition two_names_propagated : NLPConfig.t :=
  NLPConfig.mk VNone en
    [(TRANSFORMERS_TOKENIZER, [(KEY, VStr "bert-base-cased")]);
     (TRANSFORMERS_MODEL, [(KEY, VStr "bert-base-cased")]);
     (TRANSFORMERS_SEQ_CLASSIFIER,
      [(KEY, VStr "bert-base-cased");
       (LABELS, VList [VStr "pos"; VStr "neg"])]);
     ("sentencizer", [])].

(** What [_correct_trf_pipeline] makes of [ner_only]. *)
Definition ner_only_corrected : NLPConfig.t :=
  NLPConfig.mk (VStr "ner") (LangConfig.mk "en" true [] None)
    [("sentencizer", [("punct_chars", VList [VStr "."])]);
     (TRANSFORMERS_TOKENIZER, [(KEY, VStr "bert-base-cased")]);
     (TRANSFORMERS_MODEL, [(KEY, VStr "bert-base-cased")]);
     (TRANSFORMERS_NER,
      [(KEY, VStr "bert-base-cased");
       (LABELS, VList [VStr "PERSON"; VStr "LOC"])])].

(** The host [create_model] makes of [ner_only], with [create_pipe]. *)
Definition ner_only_host : Host.t (string * dict value) :=
  Host.mk (TorchLanguage [] [("meta", VDict [("lang", VStr "en")])])
    (pipeline ner_only_resolved) (Some "ner").

(** The host [create_model] makes of [plain], with [create_pipe]. *)
Definition plain_host : Host.t (string * dict value) :=
  Host.mk (blank "en" [("max_length", VInt 1000)])
    (pipeline plain) (Some "sents").


End Examples.

(** ** The nodes of the config, and identifier propagation on them *)

Module Nodes.

(** What a settings mapping holds under a key.  OmegaConf tells the three
    by the stored text: a string with [${...}] in it is an interpolation,
    read through the keys it refers to; the string [???] marks a value that
    must be given and is not; anything else is a value stored as it is. *)
Inductive node : Type :=
| Plain (v : value)
| Interpolation (text : string)
| Mandatory.

Definition Mapping : Type := dict node.

(** What [cfg.pipeline] holds under a stage name: a settings mapping, or
    [None] for a stage with nothing under its name (YAML null). *)
Definition Stage : Type := option Mapping.

(** [cfg.pipeline]: stage name to stage, in pipeline order. *)
Definition Stages : Type := dict Stage.

Record Config : Type := mk {
  name : value;
  lang : LangConfig.t;
  pipeline : Stages
}.

(** [cfg.pipeline = p]. *)
Definition set_pipeline (cfg : Config) (p : Stages) : Config :=
  mk (name cfg) (lang cfg) p.

Section Pass.

(** The names of the advanced-backend stages, the module's constant
    [TRF_PIPES]. *)
Variable TRF_PIPES : list string.

(** OmegaConf's rendering of a node, [pretty()], and its resolution of an
    interpolation against the root of the config the node is part of:
    [None] when a key the text refers to is not there. *)
Variable pretty : Stages -> string.
Variable resolve : Config -> string -> option value.

(** [v[k]], with [v] what [cfg.pipeline.items()] gives for a stage of the
    config [root].  Python raises [TypeError] on [None[k]]; a [DictConfig]
    gives [None] for a key that is not there, the value of a plain node,
    what an interpolation resolves to, and raises [KeyError] on an
    interpolation that does not resolve and [MissingMandatoryValue] on
    [???].  OmegaConf names the key in the message of its exception; the
    [KeyError] here carries the text of the interpolation. *)
Definition getitem (root : Config) (v : Stage) (k : string) : result value :=
  match v with
  | None => Err (TypeError "'NoneType' object is not subscriptable")
  | Some d =>
      match dict_get d k with
      | None => Ok VNone
      | Some (Plain x) => Ok x
      | Some (Interpolation text) =>
          match resolve root text with
          | Some x => Ok x
          | None => Err (KeyError text)
          end
      | Some Mandatory => Err (Raised "MissingMandatoryValue")
      end
  end.

(** [v[k] = x]: the value is stored as it is. *)
Definition setitem (v : Stage) (k : string) (x : value) : result Stage :=
  match v with
  | None =>
      Err (TypeError "'NoneType' object does not support item assignment")
  | Some d => Ok (Some (dict_set d k (Plain x)))
  end.

(** The first loop of [_complement_trf_name]:
    [for k, v in cfg.pipeline.items():]
    [    if k in TRF_PIPES and v[KEY]: VAL = v[KEY]].
    The second [v[KEY]] gives what the first gave. *)
Fixpoint scan_trf_name (root : Config) (p : Stages) (VAL : value)
  : result value :=
  match p with
  | [] => Ok VAL
  | (k, v) :: p' =>
      if contains TRF_PIPES k
      then
        x <- getitem root v KEY ;;
        scan_trf_name root p' (if truthy x then x else VAL)
      else scan_trf_name root p' VAL
  end.

(** The second loop:
    [for k, v in cfg.pipeline.items(): if k in TRF_PIPES: v[KEY] = VAL]. *)
Fixpoint write_trf_name (p : Stages) (VAL : value) : result Stages :=
  match p with
  | [] => Ok []
  | (k, v) :: p' =>
      if contains TRF_PIPES k
      then
        v' <- setitem v KEY VAL ;;
        rest <- write_trf_name p' VAL ;;
        Ok ((k, v') :: rest)
      else
        rest <- write_trf_name p' VAL ;;
        Ok ((k, v) :: rest)
  end.

Definition _complement_trf_name (cfg : Config) : result Config :=
  if negb (intersects (keys (pipeline cfg)) TRF_PIPES) then Ok cfg
  else
    VAL <- scan_trf_name cfg (pipeline cfg) (VStr EmptyString) ;;
    if negb (truthy VAL)
    then Err (ValueError (missing_name_header ++ pretty (pipeline cfg))%string)
    else
      p <- write_trf_name (pipeline cfg) VAL ;;
      Ok (set_pipeline cfg p).

(** The stage has a settings mapping, and what the mapping holds under
    [KEY], if anything, is a plain value or an interpolation that
    resolves. *)
Definition well_given (root : Config) (v : Stage) : bool :=
  match v with
  | None => false
  | Some d =>
      match dict_get d KEY with
      | None => true
      | Some (Plain _) => true
      | Some (Interpolation text) =>
          match resolve root text with
          | Some _ => true
          | None => false
          end
      | Some Mandatory => false
      end
  end.

(** Every advanced-backend stage of [p] is well given. *)
Definition all_well_given (root : Config) (p : Stages) : bool :=
  forallb
    (fun kv => negb (contains TRF_PIPES (fst kv)) || well_given root (snd kv))
    p.

(** The identifier a stage gives: what [v[KEY]] reads, and [None] where
    the access raises. *)
Definition identifier (root : Config) (v : Stage) : value :=
  match getitem root v KEY with
  | Ok x => x
  | Err _ => VNone
  end.

(** A stage declares the shared identifier: the test of the first loop,
    [k in TRF_PIPES and v[KEY]], passes. *)
Definition declares (root : Config) (kv : string * Stage) : bool :=
  contains TRF_PIPES (fst kv)
  && match getitem root (snd kv) KEY with
     | Ok x => truthy x
     | Err _ => false
     end.

(** What the second loop makes of a stage with a settings mapping. *)
Definition put_identifier (VAL : value) (kv : string * Stage)
  : string * Stage :=
  if contains TRF_PIPES (fst kv)
  then (fst kv, option_map (fun d => dict_set d KEY (Plain VAL)) (snd kv))
  else kv.

End Pass.




(** Modelled from the spec: a rendering of the stages, which OmegaConf's
    [pretty()] gives as YAML; here in flow style as [Camphr.pretty], an
    interpolation and [???] by their text. *)
Definition show_node (n : node) : value :=
  match n with
  | Plain x => x
  | Interpolation text => VStr text
  | Mandatory => VStr "???"
  end.

Definition show_stage (v : Stage) : value :=
  match v with
  | None => VNone
  | Some d => VDict (map (fun e => (fst e, show_node (snd e))) d)
  end.

Definition render (p : Stages) : string :=
  Camphr.show (VDict (map (fun kv => (fst kv, show_stage (snd kv))) p)).

(** OmegaConf's resolution of an interpolation, as far as the
    configurations below need it.  Of the keys of a config it knows the
    two that every config has, [name] and [lang.name]; the configurations
    refer to no other key that they have, and a reference to a key that
    the config has not does not resolve. *)
Definition resolve_root (root : Config) (text : string) : option value :=
  if String.eqb text "${name}" then Some (name root)
  else if String.eqb text "${lang.name}"
       then Some (VStr (LangConfig.name (lang root)))
       else None.

(** The tokenizer and the classifier declare different identifiers, the
    classifier through the name of the config; the base model has no entry
    for the key. *)
Definition two_names : Config :=
  mk (VStr "bert-base-cased") Examples.en
    [(Camphr.TRANSFORMERS_TOKENIZER,
      Some [(KEY, Plain (VStr "xlnet-base-cased"))]);
     (Camphr.TRANSFORMERS_MODEL, Some []);
     (Camphr.TRANSFORMERS_SEQ_CLASSIFIER,
      Some [(KEY, Interpolation "${name}");
            (LABELS, Plain (VList [VStr "pos"; VStr "neg"]))]);
     ("sentencizer", None)].

(** What propagation makes of [two_names]: the name of the config, read
    through the classifier's interpolation, stored on the three
    advanced-backend stages. *)
Definition two_names_propagated : Config :=
  mk (VStr "bert-base-cased") Examples.en
    [(Camphr.TRANSFORMERS_TOKENIZER,
      Some [(KEY, Plain (VStr "bert-base-cased"))]);
     (Camphr.TRANSFORMERS_MODEL, Some [(KEY, Plain (VStr "bert-base-cased"))]);
     (Camphr.TRANSFORMERS_SEQ_CLASSIFIER,
      Some [(KEY, Plain (VStr "bert-base-cased"));
            (LABELS, Plain (VList [VStr "pos"; VStr "neg"]))]);
     ("sentencizer", None)].

(** As [two_names], the base model referring to a key the config has
    not. *)
Definition two_names_broken : Config :=
  mk (VStr "bert-base-cased") Examples.en
    [(Camphr.TRANSFORMERS_TOKENIZER,
      Some [(KEY, Plain (VStr "xlnet-base-cased"))]);
     (Camphr.TRANSFORMERS_MODEL, Some [(KEY, Interpolation "${model.name}")]);
     (Camphr.TRANSFORMERS_SEQ_CLASSIFIER,
      Some [(KEY, Interpolation "${name}");
            (LABELS, Plain (VList [VStr "pos"; VStr "neg"]))])].

(** Advanced-backend stages, and no identifier. *)
Definition no_name : Config :=
  mk VNone Examples.en
    [(Camphr.TRANSFORMERS_MODEL, Some []);
     (Camphr.TRANSFORMERS_NER,
      Some [(LABELS, Plain (VList [VStr "PERSON"]))])].

(** The base model with nothing under its name, [transformers_model:],
    and no task stage. *)
Definition null_model : Config :=
  mk VNone Examples.en [(Camphr.TRANSFORMERS_MODEL, None)].

(** The tokenizer has no entry for the key, the base model refers to a
    key the config has not. *)
Definition broken_reference : Config :=
  mk VNone Examples.en
    [(Camphr.TRANSFORMERS_TOKENIZER, Some []);
     (Camphr.TRANSFORMERS_MODEL, Some [(KEY, Interpolation "${model.name}")])].

End Nodes.

Section Models.

(** The four stage names are imported from [camphr.pipelines], which is
    not part of the sources at hand; the module only needs them to be
    four different names. *)
Variables TRANSFORMERS_TOKENIZER TRANSFORMERS_MODEL : string.
Variables TRANSFORMERS_SEQ_CLASSIFIER TRANSFORMERS_NER : string.

(** The label collaborators, [camphr.ner_labels.utils.get_biluo_labels]
    and [camphr.utils.get_labels], and OmegaConf's rendering of a node,
    [pretty()]. *)
Variables get_biluo_labels get_labels : value -> result value.
Variable pretty : Pipeline -> string.

Hypothesis pipes_distinct :
  distinct [TRANSFORMERS_TOKENIZER; TRANSFORMERS_MODEL;
            TRANSFORMERS_SEQ_CLASSIFIER; TRANSFORMERS_NER] = true.

Definition TRF_BASES : list string :=
  [TRANSFORMERS_TOKENIZER; TRANSFORMERS_MODEL].
Definition TRF_TASKS : list string :=
  [TRANSFORMERS_SEQ_CLASSIFIER; TRANSFORMERS_NER].
Definition TRF_PIPES : list string := TRF_BASES ++ TRF_TASKS.

(** [[pipe_names.index(k) for k in TRF_TASKS if k in pipe_names]]. *)
Definition trf_task_indices (pipe_names : list string) : list nat :=
  flat_map
    (fun k =>
       if contains pipe_names k
       then match index pipe_names k with Some i => [i] | None => [] end
       else [])
    TRF_TASKS.

(** The loop of [_complement_trf_pipeline]:
    [for k in reversed(TRF_BASES):]
    [    if k not in pipe_names: pipe_names.insert(trf_task_idx, k)]. *)
Definition insert_missing_bases (trf_task_idx : nat) (pipe_names : list string)
  : list string :=
  fold_left
    (fun names k =>
       if contains names k then names else insert trf_task_idx k names)
    (rev TRF_BASES) pipe_names.

(** The base stages a pipeline lacks, in the order of [TRF_BASES]. *)
Definition missing_bases (p : Pipeline) : list string :=
  filter (fun k => negb (contains (keys p) k)) TRF_BASES.

Definition _complement_trf_pipeline (cfg : NLPConfig.t) : NLPConfig.t :=
  let pipe_names := keys (pipeline cfg) in
  match trf_task_indices pipe_names with
  | [] => cfg
  | i :: rest =>
      let trf_task_idx := list_min i rest in
      let pipe_names := insert_missing_bases trf_task_idx pipe_names in
      set_pipeline cfg
        (dict_comprehension (fun k => get_default (pipeline cfg) k [])
           pipe_names)
  end.

(** A stage declares the shared identifier: the test of the first loop of
    [_complement_trf_name], [k in TRF_PIPES and v[KEY]]. *)
Definition declares (kv : string * Settings) : bool :=
  contains TRF_PIPES (fst kv) && truthy (getitem (snd kv) KEY).

(** The first loop of [_complement_trf_name]:
    [for k, v in cfg.pipeline.items():]
    [    if k in TRF_PIPES and v[KEY]: VAL = v[KEY]]. *)
Definition scan_trf_name (p : Pipeline) (VAL : value) : value :=
  fold_left
    (fun VAL kv =>
       let '(k, v) := kv in
       if contains TRF_PIPES k && truthy (getitem v KEY)
       then getitem v KEY
       else VAL)
    p VAL.

(** The second loop:
    [for k, v in cfg.pipeline.items(): if k in TRF_PIPES: v[KEY] = VAL]. *)
Definition write_trf_name (p : Pipeline) (VAL : value) : Pipeline :=
  map
    (fun kv =>
       let '(k, v) := kv in
       if contains TRF_PIPES k then (k, dict_set v KEY VAL) else (k, v))
    p.

(** On settings mappings of values stored as they are no item access
    raises, and the [ValueError] is the one exception of the pass;
    [Nodes._complement_trf_name] is the pass on any stage. *)
Definition _complement_trf_name (cfg : NLPConfig.t) : result NLPConfig.t :=
  if negb (intersects (keys (pipeline cfg)) TRF_PIPES) then Ok cfg
  else
    let VAL := scan_trf_name (pipeline cfg) (VStr EmptyString) in
    if negb (truthy VAL)
    then Err (ValueError (missing_name_header ++ pretty (pipeline cfg))%string)
    else Ok (set_pipeline cfg (write_trf_name (pipeline cfg) VAL)).

Definition _correct_torch (cfg : NLPConfig.t) : NLPConfig.t :=
  if intersects (keys (pipeline cfg)) TRF_PIPES
  then set_torch cfg true
  else cfg.

Definition _correct_trf_pipeline (cfg : NLPConfig.t) : result NLPConfig.t :=
  let cfg := _complement_trf_pipeline cfg in
  cfg <- _complement_trf_name cfg ;;
  let cfg := _correct_torch cfg in
  Ok cfg.

(** One half of [_resolve_label]: [s = cfg.pipeline[stage]], and when [s]
    is truthy, [s[LABELS] = f(s[LABELS])].  A stage that is not in the
    pipeline reads as [None]. *)
Definition resolve_stage_label (f : value -> result value) (stage : string)
    (cfg : NLPConfig.t) : result NLPConfig.t :=
  match dict_get (pipeline cfg) stage with
  | Some s =>
      if nonempty s
      then
        labels <- f (getitem s LABELS) ;;
        Ok (set_pipeline cfg
              (dict_set (pipeline cfg) stage (dict_set s LABELS labels)))
      else Ok cfg
  | None => Ok cfg
  end.

(** What label resolution makes of one stage: [before] and [after] are the
    stage's settings in the pipeline before and after, [None] for a stage
    that is not there.  An absent stage stays absent, empty settings stay
    empty, and other settings get [f] of their labels under [LABELS]. *)
Definition stage_resolved (f : value -> result value)
    (before after : option Settings) : Prop :=
  match before with
  | None => after = None
  | Some s =>
      if nonempty s
      then exists labels,
             f (getitem s LABELS) = Ok labels
             /\ after = Some (dict_set s LABELS labels)
      else after = Some s
  end.

(** The stage fails to resolve with [e]: it has settings, and [f] raises
    [e] on their labels. *)
Definition stage_fails (f : value -> result value) (before : option Settings)
    (e : exn) : Prop :=
  exists s, before = Some s /\ nonempty s = true
            /\ f (getitem s LABELS) = Err e.

Definition _resolve_label (cfg : NLPConfig.t) : result NLPConfig.t :=
  cfg <- resolve_stage_label get_biluo_labels TRANSFORMERS_NER cfg ;;
  cfg <- resolve_stage_label get_labels TRANSFORMERS_SEQ_CLASSIFIER cfg ;;
  Ok cfg.

Definition correct_nlp_config (cfg : NLPConfig.t) : result NLPConfig.t :=
  cfg <- _correct_trf_pipeline cfg ;;
  cfg <- _resolve_label cfg ;;
  Ok cfg.

Section CreateModel.

(** The stages of the host and its factory, [nlp.create_pipe(name, config)],
    which is the framework's and may raise. *)
Variable Pipe : Type.
Variable create_pipe : Host.t Pipe -> string -> dict value -> result Pipe.

(** The loop of [create_model]:
    [for name, config in cfg.pipeline.items():]
    [    nlp.add_pipe(nlp.create_pipe(name, config=config or dict()))]. *)
Fixpoint add_pipes (nlp : Host.t Pipe) (items : Pipeline)
  : result (Host.t Pipe) :=
  match items with
  | [] => Ok nlp
  | (name, config) :: items' =>
      let config := if nonempty config then config else [] in
      pipe <- create_pipe nlp name config ;;
      add_pipes (add_pipe nlp pipe) items'
  end.

Definition create_model (cfg : NLPConfig.t) : result (Host.t Pipe) :=
  cfg <- correct_nlp_config cfg ;;
  nlp <- create_lang (lang cfg) ;;
  nlp <- add_pipes (Host.mk nlp [] None) (pipeline cfg) ;;
  match NLPConfig.name cfg with
  | VStr name =>
      if String.eqb name EmptyString then Ok nlp
      else Ok (set_meta_name nlp name)
  | _ => Ok nlp
  end.

End CreateModel.

(** ** Facts about names and ordered mappings *)

Unset Implicit Arguments.

Lemma contains_In (names : list string) (k : string) :
  contains names k = true <-> In k names.
Proof.
  unfold contains. rewrite existsb_exists. split.
  - intros (x & Hx & E). apply String.eqb_eq in E. now subst.
  - intros H. exists k. split; [assumption | apply String.eqb_refl].
Qed.

Lemma contains_not_In (names : list string) (k : string) :
  contains names k = false <-> ~ In k names.
Proof.
  rewrite <- contains_In. destruct (contains names k); split; congruence.
Qed.

Lemma contains_app (a b : list string) (k : string) :
  contains (a ++ b) k = contains a k || contains b k.
Proof. unfold contains. apply existsb_app. Qed.

Lemma distinct_NoDup (names : list string) :
  distinct names = true <-> NoDup names.
Proof.
  induction names as [| k names IH]; simpl.
  - split; [constructor | reflexivity].
  - rewrite andb_true_iff, negb_true_iff, contains_not_In, IH.
    split.
    + intros [H1 H2]. now constructor.
    + intros H. inversion H; subst. now split.
Qed.

Lemma index_app_fresh (before rest : list string) (k : string) :
  ~ In k before ->
  index (before ++ rest) k
  = option_map (Nat.add (List.length before)) (index rest k).
Proof.
  induction before as [| b before IH]; simpl; intros H.
  - now destruct (index rest k).
  - destruct (String.eqb_spec k b) as [-> | Hkb].
    + exfalso. apply H. now left.
    + rewrite IH by tauto. now destruct (index rest k).
Qed.

Lemma index_In (names : list string) (k : string) :
  In k names -> exists i, index names k = Some i.
Proof.
  induction names as [| b names IH]; simpl; [tauto |].
  intros [-> | H].
  - rewrite String.eqb_refl. now exists 0.
  - destruct (String.eqb k b); [now exists 0 |].
    destruct (IH H) as [i ->]. now exists (S i).
Qed.

Lemma insert_at_length (before rest : list string) (k : string) :
  insert (List.length before) k (before ++ rest) = before ++ k :: rest.
Proof.
  unfold insert.
  rewrite firstn_app, skipn_app, Nat.sub_diag, firstn_all, skipn_all.
  simpl. now rewrite app_nil_r.
Qed.

Lemma list_min_le (l : list nat) (i : nat) :
  Forall (fun j => i <= j) l -> list_min i l = i.
Proof.
  unfold list_min. induction l as [| j l IH]; simpl; intros H.
  - reflexivity.
  - inversion H; subst. rewrite Nat.min_l by assumption. now apply IH.
Qed.

Section DictFacts.
Variable V : Type.
Implicit Types (d : dict V) (k : string) (v : V).

Lemma keys_app d1 d2 : keys (d1 ++ d2) = keys d1 ++ keys d2.
Proof. apply map_app. Qed.

Lemma dict_get_fresh d k : ~ In k (keys d) -> dict_get d k = None.
Proof.
  induction d as [| [k' v'] d IH]; simpl; intros H; [reflexivity |].
  destruct (String.eqb_spec k k') as [-> | Hk]; [tauto |].
  apply IH. tauto.
Qed.

Lemma dict_get_In d k v :
  wf_dict d -> In (k, v) d -> dict_get d k = Some v.
Proof.
  unfold wf_dict.
  induction d as [| [k' v'] d IH]; simpl; intros Hd H; [tauto |].
  inversion Hd as [| ? ? Hnotin Hd']; subst.
  destruct H as [H | H].
  - inversion H; subst. now rewrite String.eqb_refl.
  - destruct (String.eqb_spec k k') as [-> | Hk].
    + exfalso. apply Hnotin. change k' with (fst (k', v)). now apply in_map.
    + now apply IH.
Qed.

Lemma dict_get_Some_In d k v : dict_get d k = Some v -> In (k, v) d.
Proof.
  induction d as [| [k' v'] d IH]; simpl; [discriminate |].
  destruct (String.eqb_spec k k') as [-> | Hk].
  - intros [= ->]. now left.
  - intros H. right. now apply IH.
Qed.

Lemma dict_set_fresh d k v :
  ~ In k (keys d) -> dict_set d k v = d ++ [(k, v)].
Proof.
  induction d as [| [k' v'] d IH]; simpl; intros H; [reflexivity |].
  destruct (String.eqb_spec k k') as [-> | Hk]; [tauto |].
  rewrite IH by tauto. reflexivity.
Qed.

Lemma keys_dict_set_present d k v :
  In k (keys d) -> keys (dict_set d k v) = keys d.
Proof.
  induction d as [| [k' v'] d IH]; simpl; [tauto |].
  destruct (String.eqb_spec k k') as [-> | Hk]; [reflexivity |].
  intros [H | H]; [congruence |]. simpl. now rewrite IH.
Qed.

Lemma dict_get_set_same d k v : dict_get (dict_set d k v) k = Some v.
Proof.
  induction d as [| [k' v'] d IH]; simpl.
  - now rewrite String.eqb_refl.
  - destruct (String.eqb_spec k k') as [-> | Hk]; simpl.
    + now rewrite String.eqb_refl.
    + destruct (String.eqb_spec k k'); [congruence | assumption].
Qed.

Lemma dict_get_set_other d k k' v :
  k' <> k -> dict_get (dict_set d k v) k' = dict_get d k'.
Proof.
  intros Hk. induction d as [| [k0 v0] d IH]; simpl.
  - destruct (String.eqb_spec k' k); [congruence | reflexivity].
  - destruct (String.eqb_spec k k0) as [-> | Hk0]; simpl.
    + destruct (String.eqb_spec k' k0); [congruence | reflexivity].
    + now rewrite IH.
Qed.

Lemma dict_comprehension_acc (f : string -> V) (names : list string) d :
  NoDup (keys d ++ names) ->
  fold_left (fun d k => dict_set d k (f k)) names d
  = d ++ map (fun k => (k, f k)) names.
Proof.
  revert d. induction names as [| k names IH]; simpl; intros d H.
  - now rewrite app_nil_r.
  - assert (Hk : ~ In k (keys d)).
    { apply NoDup_remove_2 in H. intros Hin. apply H.
      apply in_or_app. now left. }
    rewrite dict_set_fresh by assumption.
    rewrite IH.
    + now rewrite <- app_assoc.
    + rewrite keys_app. simpl. now rewrite <- app_assoc.
Qed.

Lemma dict_comprehension_NoDup (f : string -> V) (names : list string) :
  NoDup names ->
  dict_comprehension f names = map (fun k => (k, f k)) names.
Proof.
  intros H. unfold dict_comprehension.
  now rewrite dict_comprehension_acc.
Qed.

Lemma rebuild_part (p q : dict V) (default : V) :
  wf_dict p -> incl q p ->
  map (fun k => (k, get_default p k default)) (keys q) = q.
Proof.
  intros Hp Hq. unfold keys. rewrite map_map.
  rewrite <- (map_id q) at 2. apply map_ext_in.
  intros [k v] Hin. simpl. unfold get_default.
  pose proof (Hq _ Hin) as Hin'.
  apply dict_get_In in Hin'; [| assumption]. now rewrite Hin'.
Qed.

Lemma dict_update_nil (d : dict V) :
  wf_dict d -> dict_update [] d = d.
Proof.
  intros H. unfold dict_update.
  assert (G : forall (l acc : dict V), NoDup (keys acc ++ keys l) ->
             fold_left (fun rv kv => dict_set rv (fst kv) (snd kv)) l acc
             = acc ++ l).
  { induction l as [| [k v] l IH]; simpl; intros acc Hnd.
    - now rewrite app_nil_r.
    - rewrite dict_set_fresh.
      + rewrite IH; [now rewrite <- app_assoc |].
        rewrite keys_app. simpl. now rewrite <- app_assoc.
      + apply NoDup_remove_2 in Hnd. intros Hin. apply Hnd.
        apply in_or_app. now left. }
  apply (G d []). assumption.
Qed.

End DictFacts.

(** ** The stage names *)

Lemma pipe_names_differ :
  TRANSFORMERS_TOKENIZER <> TRANSFORMERS_MODEL
  /\ TRANSFORMERS_TOKENIZER <> TRANSFORMERS_SEQ_CLASSIFIER
  /\ TRANSFORMERS_TOKENIZER <> TRANSFORMERS_NER
  /\ TRANSFORMERS_MODEL <> TRANSFORMERS_SEQ_CLASSIFIER
  /\ TRANSFORMERS_MODEL <> TRANSFORMERS_NER
  /\ TRANSFORMERS_SEQ_CLASSIFIER <> TRANSFORMERS_NER.
Proof.
  pose proof pipes_distinct as H. apply distinct_NoDup in H.
  inversion H as [| ? ? H1 H']; subst.
  inversion H' as [| ? ? H2 H'']; subst.
  inversion H'' as [| ? ? H3 _]; subst.
  simpl in H1, H2, H3. repeat split; intros E; subst; tauto.
Qed.

Lemma In_TRF_TASKS (k : string) :
  In k TRF_TASKS <-> k = TRANSFORMERS_SEQ_CLASSIFIER \/ k = TRANSFORMERS_NER.
Proof. unfold TRF_TASKS. simpl. intuition congruence. Qed.

Lemma In_TRF_BASES (k : string) :
  In k TRF_BASES <-> k = TRANSFORMERS_TOKENIZER \/ k = TRANSFORMERS_MODEL.
Proof. unfold TRF_BASES. simpl. intuition congruence. Qed.

Lemma In_TRF_PIPES (k : string) :
  In k TRF_PIPES <-> In k TRF_BASES \/ In k TRF_TASKS.
Proof. unfold TRF_PIPES. apply in_app_iff. Qed.



(** ** Pipeline completion *)

Lemma list_min_attained (m : nat) (l : list nat) (i : nat) :
  Forall (fun j => m <= j) l -> m <= i -> i = m \/ In m l ->
  list_min i l = m.
Proof.
  unfold list_min. revert i.
  induction l as [| j l IH]; simpl; intros i Hl Hi Hin.
  - destruct Hin as [-> | []]. reflexivity.
  - inversion Hl; subst. apply IH.
    + assumption.
    + now apply Nat.min_glb.
    + destruct Hin as [-> | [-> | Hin]].
      * left. now apply Nat.min_l.
      * left. now apply Nat.min_r.
      * now right.
Qed.

Lemma NoDup_insert_middle (k : string) (before rest : list string) :
  NoDup (before ++ rest) -> ~ In k (before ++ rest) ->
  NoDup (before ++ k :: rest).
Proof.
  induction before as [| b before IH]; simpl; intros Hnd Hk.
  - now constructor.
  - inversion Hnd; subst. constructor.
    + rewrite in_app_iff in *. simpl. intuition congruence.
    + apply IH; tauto.
Qed.

(** What one task name contributes to [trf_task_indices]. *)
Lemma task_index_contribution (before after : list string) (t k : string) :
  ~ In k before ->
  let names := before ++ t :: after in
  let c := if contains names k
           then match index names k with Some i => [i] | None => [] end
           else [] in
  (k = t -> c = [List.length before])
  /\ Forall (fun j => List.length before <= j) c.
Proof.
  intros Hk names c. subst c names.
  rewrite index_app_fresh by assumption. simpl.
  destruct (String.eqb_spec k t) as [-> | Hkt].
  - simpl. rewrite Nat.add_0_r.
    assert (E : contains (before ++ t :: after) t = true).
    { apply contains_In. apply in_or_app. right. now left. }
    rewrite E. split; [reflexivity |]. constructor; [lia | constructor].
  - split; [congruence |].
    destruct (contains (before ++ t :: after) k); [| constructor].
    destruct (index after k); simpl; constructor; [lia | constructor].
Qed.

Lemma earliest_task_index (before after : list string) (t : string) :
  In t TRF_TASKS ->
  (forall k, In k before -> ~ In k TRF_TASKS) ->
  exists i rest,
    trf_task_indices (before ++ t :: after) = i :: rest
    /\ list_min i rest = List.length before.
Proof.
  intros Ht Hbefore.
  assert (Hseq : ~ In TRANSFORMERS_SEQ_CLASSIFIER before).
  { intros H. apply (Hbefore _ H). apply In_TRF_TASKS. now left. }
  assert (Hner : ~ In TRANSFORMERS_NER before).
  { intros H. apply (Hbefore _ H). apply In_TRF_TASKS. now right. }
  destruct (task_index_contribution before after t _ Hseq) as [S1 S2].
  destruct (task_index_contribution before after t _ Hner) as [N1 N2].
  unfold trf_task_indices, TRF_TASKS. simpl flat_map.
  rewrite app_nil_r.
  set (cs := if contains (before ++ t :: after) TRANSFORMERS_SEQ_CLASSIFIER
             then _ else _) in *.
  set (cn := if contains (before ++ t :: after) TRANSFORMERS_NER
             then _ else _) in *.
  assert (Hall : Forall (fun j => List.length before <= j) (cs ++ cn))
    by (apply Forall_app; now split).
  assert (Hin : In (List.length before) (cs ++ cn)).
  { apply in_or_app. apply In_TRF_TASKS in Ht. destruct Ht as [-> | ->].
    - left. rewrite S1 by reflexivity. now left.
    - right. rewrite N1 by reflexivity. now left. }
  destruct (cs ++ cn) as [| i rest]; [destruct Hin |].
  exists i, rest. split; [reflexivity |].
  inversion Hall; subst.
  apply list_min_attained; assumption.
Qed.

Lemma no_task_no_indices (names : list string) :
  intersects names TRF_TASKS = false -> trf_task_indices names = [].
Proof.
  intros H. unfold trf_task_indices, TRF_TASKS. simpl.
  assert (G : forall k, In k TRF_TASKS -> contains names k = false).
  { intros k Hk. apply contains_not_In. intros Hin.
    unfold intersects in H.
    assert (E : existsb (contains TRF_TASKS) names = true).
    { apply existsb_exists. exists k. split; [assumption |].
      now apply contains_In. }
    congruence. }
  rewrite (G TRANSFORMERS_SEQ_CLASSIFIER), (G TRANSFORMERS_NER);
    [reflexivity | |]; apply In_TRF_TASKS; tauto.
Qed.

Lemma insert_missing_bases_at (before rest : list string) :
  insert_missing_bases (List.length before) (before ++ rest)
  = before
    ++ filter (fun k => negb (contains (before ++ rest) k)) TRF_BASES
    ++ rest.
Proof.
  destruct pipe_names_differ as (Htm & _).
  unfold insert_missing_bases, TRF_BASES. simpl.
  destruct (contains (before ++ rest) TRANSFORMERS_MODEL) eqn:Em; simpl.
  - destruct (contains (before ++ rest) TRANSFORMERS_TOKENIZER) eqn:Et; simpl.
    + reflexivity.
    + apply insert_at_length.
  - rewrite insert_at_length.
    assert (E : contains (before ++ TRANSFORMERS_MODEL :: rest)
                  TRANSFORMERS_TOKENIZER
                = contains (before ++ rest) TRANSFORMERS_TOKENIZER).
    { rewrite !contains_app. simpl.
      destruct (String.eqb_spec TRANSFORMERS_TOKENIZER TRANSFORMERS_MODEL);
        [congruence | reflexivity]. }
    rewrite E.
    destruct (contains (before ++ rest) TRANSFORMERS_TOKENIZER); simpl.
    + reflexivity.
    + apply insert_at_length.
Qed.

Lemma missing_bases_spec (p : Pipeline) (k : string) :
  In k (missing_bases p) <-> In k TRF_BASES /\ ~ In k (keys p).
Proof.
  unfold missing_bases. rewrite filter_In, negb_true_iff, contains_not_In.
  reflexivity.
Qed.

Lemma NoDup_missing_bases (p : Pipeline) : NoDup (missing_bases p).
Proof.
  apply NoDup_filter. destruct pipe_names_differ as (Htm & _).
  unfold TRF_BASES.
  constructor; [intros [E | []]; congruence |].
  constructor; [intros [] | constructor].
Qed.

Lemma NoDup_completed (p : Pipeline) (before rest : list string) :
  keys p = before ++ rest -> NoDup (keys p) ->
  NoDup (before ++ missing_bases p ++ rest).
Proof.
  intros E Hnd.
  pose proof (NoDup_missing_bases p) as Hm.
  assert (Hfresh : forall k, In k (missing_bases p) -> ~ In k (before ++ rest)).
  { intros k Hk. apply missing_bases_spec in Hk. now rewrite <- E. }
  rewrite E in Hnd. clear E.
  induction (missing_bases p) as [| m ms IH]; simpl.
  - assumption.
  - inversion Hm; subst. apply NoDup_insert_middle.
    + apply IH; [assumption |]. intros k Hk. apply Hfresh. now right.
    + rewrite !in_app_iff. intros [H | [H | H]].
      * apply (Hfresh m); [now left | apply in_or_app; now left].
      * contradiction.
      * apply (Hfresh m); [now left | apply in_or_app; now right].
Qed.

(** The shape of the completed pipeline, around its earliest task stage. *)
Lemma complement_shape (cfg : NLPConfig.t) (before after : Pipeline)
    (t : string) (s : Settings) :
  wf_dict (pipeline cfg) ->
  pipeline cfg = before ++ (t, s) :: after ->
  In t TRF_TASKS ->
  (forall k, In k (keys before) -> ~ In k TRF_TASKS) ->
  _complement_trf_pipeline cfg
  = set_pipeline cfg
      (before ++ map (fun k => (k, [])) (missing_bases (pipeline cfg))
         ++ (t, s) :: after).
Proof.
  intros Hwf Hp Ht Hbefore.
  assert (Hkeys : keys (pipeline cfg) = keys before ++ t :: keys after).
  { rewrite Hp, keys_app. reflexivity. }
  unfold _complement_trf_pipeline.
  destruct (earliest_task_index (keys before) (keys after) t Ht Hbefore)
    as (i & rest & Hidx & Hmin).
  rewrite Hkeys, Hidx, Hmin, insert_missing_bases_at, <- Hkeys.
  fold (missing_bases (pipeline cfg)).
  f_equal.
  rewrite dict_comprehension_NoDup
    by (apply NoDup_completed; [exact Hkeys | exact Hwf]).
  rewrite !map_app. f_equal; [| f_equal].
  - apply rebuild_part; [assumption |].
    intros kv Hin. rewrite Hp. apply in_or_app. now left.
  - apply map_ext_in. intros k Hk. apply missing_bases_spec in Hk.
    unfold get_default. now rewrite dict_get_fresh.
  - change (t :: keys after) with (keys ((t, s) :: after)).
    apply rebuild_part; [assumption |].
    intros kv Hin. rewrite Hp. apply in_or_app. now right.
Qed.

(** A pipeline with a task stage splits at its earliest one. *)
Lemma earliest_task_split (p : Pipeline) :
  intersects (keys p) TRF_TASKS = true ->
  exists before t s after,
    p = before ++ (t, s) :: after
    /\ In t TRF_TASKS
    /\ forall k, In k (keys before) -> ~ In k TRF_TASKS.
Proof.
  unfold intersects.
  induction p as [| [k v] p IH]; [discriminate |].
  cbn [keys map fst existsb].
  destruct (contains TRF_TASKS k) eqn:E.
  - intros _. apply contains_In in E.
    exists [], k, v, p. split; [reflexivity |]. split; [exact E |].
    intros k' [].
  - intros H. apply contains_not_In in E.
    destruct (IH H) as (before & t & s & after & -> & Ht & Hb).
    exists ((k, v) :: before), t, s, after.
    split; [reflexivity |]. split; [exact Ht |].
    intros k' [<- | Hk']; [exact E | now apply Hb].
Qed.

Lemma missing_bases_cases (p : Pipeline) :
  missing_bases p
  = (if contains (keys p) TRANSFORMERS_TOKENIZER
     then [] else [TRANSFORMERS_TOKENIZER])
    ++ (if contains (keys p) TRANSFORMERS_MODEL
        then [] else [TRANSFORMERS_MODEL]).
Proof.
  unfold missing_bases, TRF_BASES. simpl.
  destruct (contains (keys p) TRANSFORMERS_TOKENIZER),
    (contains (keys p) TRANSFORMERS_MODEL); reflexivity.
Qed.

(** C1. Completion of a pipeline that has a task stage and lacks a base
    stage: the pipeline splits at its earliest task stage, and the result is
    the part before it, then the missing base stages (the tokenizer first,
    then the base model, each with empty settings), then the task stage and
    what follows it, every old stage with its old settings; the result has
    no stage twice, and nothing else of the config changes. *)
Theorem complement_inserts_missing_bases (cfg : NLPConfig.t) :
  wf_dict (pipeline cfg) ->
  intersects (keys (pipeline cfg)) TRF_TASKS = true ->
  contains (keys (pipeline cfg)) TRANSFORMERS_TOKENIZER = false
  \/ contains (keys (pipeline cfg)) TRANSFORMERS_MODEL = false ->
  exists (before after : Pipeline) (t : string) (s : Settings)
         (missing : list string),
    pipeline cfg = before ++ (t, s) :: after
    /\ In t TRF_TASKS
    /\ (forall k, In k (keys before) -> ~ In k TRF_TASKS)
    /\ missing
       = (if contains (keys (pipeline cfg)) TRANSFORMERS_TOKENIZER
          then [] else [TRANSFORMERS_TOKENIZER])
         ++ (if contains (keys (pipeline cfg)) TRANSFORMERS_MODEL
             then [] else [TRANSFORMERS_MODEL])
    /\ missing <> []
    /\ pipeline (_complement_trf_pipeline cfg)
       = before ++ map (fun k => (k, [])) missing ++ (t, s) :: after
    /\ wf_dict (pipeline (_complement_trf_pipeline cfg))
    /\ lang (_complement_trf_pipeline cfg) = lang cfg
    /\ NLPConfig.name (_complement_trf_pipeline cfg) = NLPConfig.name cfg.
Proof.
  intros Hwf Htask Hlack.
  destruct (earliest_task_split _ Htask)
    as (before & t & s & after & Hp & Ht & Hb).
  exists before, after, t, s, (missing_bases (pipeline cfg)).
  rewrite (complement_shape cfg before after t s Hwf Hp Ht Hb).
  split; [exact Hp |]. split; [exact Ht |]. split; [exact Hb |].
  split; [apply missing_bases_cases |].
  split.
  { rewrite missing_bases_cases.
    destruct Hlack as [-> | ->].
    - discriminate.
    - destruct (contains _ TRANSFORMERS_TOKENIZER); discriminate. }
  split; [reflexivity |]. split; [| split; reflexivity].
  unfold wf_dict. simpl. rewrite !keys_app.
  unfold keys at 2. rewrite map_map. simpl. rewrite map_id.
  apply NoDup_completed; [| exact Hwf].
  rewrite Hp, keys_app. reflexivity.
Qed.

Lemma complement_without_task (cfg : NLPConfig.t) :
  intersects (keys (pipeline cfg)) TRF_TASKS = false ->
  _complement_trf_pipeline cfg = cfg.
Proof.
  intros Hnone. unfold _complement_trf_pipeline.
  now rewrite (no_task_no_indices _ Hnone).
Qed.

Lemma complement_with_bases (cfg : NLPConfig.t) :
  wf_dict (pipeline cfg) ->
  intersects (keys (pipeline cfg)) TRF_TASKS = true ->
  contains (keys (pipeline cfg)) TRANSFORMERS_TOKENIZER = true ->
  contains (keys (pipeline cfg)) TRANSFORMERS_MODEL = true ->
  _complement_trf_pipeline cfg = cfg.
Proof.
  intros Hwf Htask Htok Hmodel.
  destruct (earliest_task_split _ Htask)
    as (before & t & s & after & Hp & Ht & Hb).
  rewrite (complement_shape cfg before after t s Hwf Hp Ht Hb).
  rewrite missing_bases_cases, Htok, Hmodel. simpl.
  rewrite <- Hp. now destruct cfg.
Qed.

(** C6. Completion changes nothing when the pipeline has a task stage and
    both base stages, and nothing when it has no task stage. *)
Theorem complement_noop (cfg : NLPConfig.t) :
  wf_dict (pipeline cfg) ->
  (intersects (keys (pipeline cfg)) TRF_TASKS = true
   /\ contains (keys (pipeline cfg)) TRANSFORMERS_TOKENIZER = true
   /\ contains (keys (pipeline cfg)) TRANSFORMERS_MODEL = true)
  \/ intersects (keys (pipeline cfg)) TRF_TASKS = false ->
  _complement_trf_pipeline cfg = cfg.
Proof.
  intros Hwf [(Htask & Htok & Hmodel) | Hnone].
  - now apply complement_with_bases.
  - now apply complement_without_task.
Qed.

(** ** Identifier propagation *)


Lemma scan_trf_name_cons (k : string) (s : Settings) (p : Pipeline)
    (VAL : value) :
  scan_trf_name ((k, s) :: p) VAL
  = scan_trf_name p (if declares (k, s) then getitem s KEY else VAL).
Proof. reflexivity. Qed.





Lemma keys_write_trf_name (p : Pipeline) (VAL : value) :
  keys (write_trf_name p VAL) = keys p.
Proof.
  unfold keys, write_trf_name. rewrite map_map. apply map_ext.
  intros [k s]. now destruct (contains TRF_PIPES k).
Qed.

Lemma getitem_set_same (s : Settings) (k : string) (v : value) :
  getitem (dict_set s k v) k = v.
Proof. unfold getitem, get_default. now rewrite dict_get_set_same. Qed.


Lemma write_trf_name_In (p : Pipeline) (VAL : value) (k : string)
    (s' : Settings) :
  In (k, s') (write_trf_name p VAL) ->
  exists s, In (k, s) p
    /\ s' = if contains TRF_PIPES k then dict_set s KEY VAL else s.
Proof.
  unfold write_trf_name. rewrite in_map_iff.
  intros ([k0 s0] & E & Hin).
  destruct (contains TRF_PIPES k0) eqn:Ek; injection E as <- <-;
    exists s0; rewrite Ek; now split.
Qed.

Lemma dict_get_write_trf_name (p : Pipeline) (VAL : value) (k : string) :
  dict_get (write_trf_name p VAL) k
  = option_map
      (fun s => if contains TRF_PIPES k then dict_set s KEY VAL else s)
      (dict_get p k).
Proof.
  induction p as [| [k0 s0] p IH]; [reflexivity |].
  cbn [write_trf_name map].
  destruct (contains TRF_PIPES k0) eqn:Ek0; cbn [dict_get];
    destruct (String.eqb_spec k k0) as [-> | Hk];
    try (rewrite Ek0; reflexivity); exact IH.
Qed.


(** C5. The backend-mode pass sets [lang.torch] when the pipeline has an
    advanced-backend stage, whatever the flag was, and returns the config
    as it is, flag included, when the pipeline has none. *)
Theorem correct_torch_one_way (cfg : NLPConfig.t) :
  (intersects (keys (pipeline cfg)) TRF_PIPES = true ->
   _correct_torch cfg = set_torch cfg true
   /\ LangConfig.torch (lang (_correct_torch cfg)) = true)
  /\ (intersects (keys (pipeline cfg)) TRF_PIPES = false ->
      _correct_torch cfg = cfg
      /\ LangConfig.torch (lang (_correct_torch cfg))
         = LangConfig.torch (lang cfg)).
Proof.
  unfold _correct_torch. split; intros ->; split; reflexivity.
Qed.


(** ** Label resolution *)

Lemma dict_get_keys (V : Type) (d : dict V) (k : string) (v : V) :
  dict_get d k = Some v -> In k (keys d).
Proof.
  intros H. apply dict_get_Some_In in H.
  change k with (fst (k, v)). now apply in_map.
Qed.

(** One stage's step: either it returns, the stage resolved and the rest
    of the config as it was, or the collaborator raised on that stage. *)
Lemma resolve_stage_label_spec (f : value -> result value) (stage : string)
    (cfg : NLPConfig.t) :
  match resolve_stage_label f stage cfg with
  | Ok cfg' =>
      stage_resolved f (dict_get (pipeline cfg) stage)
        (dict_get (pipeline cfg') stage)
      /\ (forall k, k <> stage ->
            dict_get (pipeline cfg') k = dict_get (pipeline cfg) k)
      /\ keys (pipeline cfg') = keys (pipeline cfg)
      /\ lang cfg' = lang cfg
      /\ NLPConfig.name cfg' = NLPConfig.name cfg
  | Err e => stage_fails f (dict_get (pipeline cfg) stage) e
  end.
Proof.
  unfold resolve_stage_label, stage_resolved, stage_fails.
  destruct (dict_get (pipeline cfg) stage) as [s |] eqn:Es.
  - destruct (nonempty s) eqn:En.
    + destruct (f (getitem s LABELS)) as [labels | e] eqn:Ef; cbn [bind].
      * cbn [set_pipeline pipeline lang NLPConfig.name].
        rewrite dict_get_set_same.
        split; [now exists labels |].
        split; [intros k Hk; now apply dict_get_set_other |].
        split; [| split; reflexivity].
        apply keys_dict_set_present. now apply (dict_get_keys _ _ _ s).
      * now exists s.
    + repeat split; try reflexivity. exact Es.
  - repeat split; try reflexivity. exact Es.
Qed.


(** ** Language-host construction *)

Lemma merge_lang (meta : dict value) (v : value) :
  wf_dict meta ->
  merge (VDict meta) [("lang", v)] = Ok (dict_set meta "lang" v).
Proof.
  intros H. unfold merge. now rewrite dict_update_nil.
Qed.

Lemma In_keys_dict_set (V : Type) (d : dict V) (k k' : string) (v : V) :
  In k (keys d) -> In k (keys (dict_set d k' v)).
Proof.
  induction d as [| [k0 v0] d IH]; cbn [keys map fst dict_set In];
    [tauto |].
  destruct (String.eqb k' k0); cbn [map fst In]; [tauto |].
  intros [H | H]; [now left | right; now apply IH].
Qed.

(** C8. With the torch flag set, and the [meta] of the kwargs a mapping
    (or not given, which reads as the empty mapping), [create_lang] builds
    the advanced-backend host from the optimizer settings and the kwargs
    with [meta] replaced by the merged mapping: [lang] is the configured
    language name, every other entry of [meta] is as it was, no key of
    [meta] is lost, and the other kwargs are as they were. *)
Theorem create_lang_merges_meta (cfg : LangConfig.t) (meta : dict value) :
  LangConfig.torch cfg = true ->
  get_default (kwargs_or_empty cfg) "meta" (VDict []) = VDict meta ->
  wf_dict meta ->
  exists meta' : dict value,
    create_lang cfg
    = Ok (TorchLanguage (LangConfig.optimizer cfg)
            (dict_set (kwargs_or_empty cfg) "meta" (VDict meta')))
    /\ meta' = dict_set meta "lang" (VStr (LangConfig.name cfg))
    /\ dict_get meta' "lang" = Some (VStr (LangConfig.name cfg))
    /\ (forall k, k <> "lang" -> dict_get meta' k = dict_get meta k)
    /\ (forall k, In k (keys meta) -> In k (keys meta'))
    /\ (forall k, k <> "meta" ->
          dict_get (dict_set (kwargs_or_empty cfg) "meta" (VDict meta')) k
          = dict_get (kwargs_or_empty cfg) k).
Proof.
  intros Htorch Hmeta Hwf.
  exists (dict_set meta "lang" (VStr (LangConfig.name cfg))).
  split.
  { unfold create_lang. rewrite Htorch, Hmeta, merge_lang by assumption.
    reflexivity. }
  split; [reflexivity |].
  split; [apply dict_get_set_same |].
  split; [intros k Hk; now apply dict_get_set_other |].
  split; [intros k Hk; now apply In_keys_dict_set |].
  intros k Hk. now apply dict_get_set_other.
Qed.

(** ** The frame of the resolution chain *)

Lemma dict_get_app (V : Type) (d1 d2 : dict V) (k : string) :
  dict_get (d1 ++ d2) k
  = match dict_get d1 k with
    | Some v => Some v
    | None => dict_get d2 k
    end.
Proof.
  induction d1 as [| [k0 v0] d1 IH]; cbn [app dict_get]; [reflexivity |].
  now destruct (String.eqb k k0).
Qed.

Lemma filter_keep (A : Type) (f : A -> bool) (l : list A) :
  (forall x, In x l -> f x = true) -> filter f l = l.
Proof.
  induction l as [| x l IH]; cbn [filter]; intros H; [reflexivity |].
  rewrite (H x) by now left. f_equal. apply IH.
  intros y Hy. apply H. now right.
Qed.

Lemma filter_drop (A : Type) (f : A -> bool) (l : list A) :
  (forall x, In x l -> f x = false) -> filter f l = [].
Proof.
  induction l as [| x l IH]; cbn [filter]; intros H; [reflexivity |].
  rewrite (H x) by now left. apply IH.
  intros y Hy. apply H. now right.
Qed.

(** What completion leaves alone: the settings under every name that is
    no base stage, the old stages' order, and the invariant. *)
Lemma complement_frame (cfg : NLPConfig.t) :
  wf_dict (pipeline cfg) ->
  (forall k, ~ In k TRF_BASES ->
     dict_get (pipeline (_complement_trf_pipeline cfg)) k
     = dict_get (pipeline cfg) k)
  /\ filter (contains (keys (pipeline cfg)))
       (keys (pipeline (_complement_trf_pipeline cfg)))
     = keys (pipeline cfg)
  /\ wf_dict (pipeline (_complement_trf_pipeline cfg)).
Proof.
  intros Hwf.
  assert (Hall : filter (contains (keys (pipeline cfg))) (keys (pipeline cfg))
                 = keys (pipeline cfg)).
  { apply filter_keep. intros k Hk. now apply contains_In. }
  destruct (intersects (keys (pipeline cfg)) TRF_TASKS) eqn:Htask.
  - destruct (earliest_task_split _ Htask)
      as (before & t & s & after & Hp & Ht & Hb).
    rewrite (complement_shape cfg before after t s Hwf Hp Ht Hb).
    cbn [set_pipeline pipeline].
    set (missing := missing_bases (pipeline cfg)).
    assert (Hkm : keys (map (fun k : string => (k, @nil (string * value)))
                     missing) = missing).
    { unfold keys. rewrite map_map. apply map_id. }
    split; [| split].
    + intros k Hk. rewrite Hp, !dict_get_app.
      destruct (dict_get before k); [reflexivity |].
      rewrite dict_get_fresh; [reflexivity |].
      rewrite Hkm. intros Hin. apply missing_bases_spec in Hin.
      destruct Hin as [Hin _]. contradiction.
    + rewrite !keys_app, Hkm, !filter_app.
      rewrite (filter_drop _ _ missing).
      * cbn [app]. rewrite <- filter_app, <- keys_app.
        rewrite <- Hall at 2. now rewrite Hp.
      * intros k Hk. apply missing_bases_spec in Hk.
        now apply contains_not_In.
    + unfold wf_dict. rewrite !keys_app, Hkm.
      apply NoDup_completed; [| exact Hwf].
      now rewrite Hp, keys_app.
  - rewrite (complement_without_task cfg Htask). now repeat split.
Qed.

Lemma complement_trf_name_frame (cfg cfg' : NLPConfig.t) :
  _complement_trf_name cfg = Ok cfg' ->
  (forall k, ~ In k TRF_PIPES ->
     dict_get (pipeline cfg') k = dict_get (pipeline cfg) k)
  /\ keys (pipeline cfg') = keys (pipeline cfg).
Proof.
  unfold _complement_trf_name.
  destruct (intersects (keys (pipeline cfg)) TRF_PIPES); cbn [negb].
  - destruct (truthy (scan_trf_name (pipeline cfg) (VStr EmptyString)));
      cbn [negb]; [| discriminate].
    intros [= <-]. cbn [set_pipeline pipeline]. split.
    + intros k Hk. rewrite dict_get_write_trf_name.
      apply contains_not_In in Hk. rewrite Hk.
      now destruct (dict_get (pipeline cfg) k).
    + apply keys_write_trf_name.
  - intros [= <-]. now split.
Qed.

Lemma pipeline_correct_torch (cfg : NLPConfig.t) :
  pipeline (_correct_torch cfg) = pipeline cfg.
Proof.
  unfold _correct_torch.
  now destruct (intersects (keys (pipeline cfg)) TRF_PIPES).
Qed.

Lemma resolve_label_frame (cfg cfg' : NLPConfig.t) :
  _resolve_label cfg = Ok cfg' ->
  (forall k, ~ In k TRF_PIPES ->
     dict_get (pipeline cfg') k = dict_get (pipeline cfg) k)
  /\ keys (pipeline cfg') = keys (pipeline cfg).
Proof.
  unfold _resolve_label.
  pose proof (resolve_stage_label_spec get_biluo_labels TRANSFORMERS_NER cfg)
    as H1.
  destruct (resolve_stage_label get_biluo_labels TRANSFORMERS_NER cfg)
    as [cfg1 | e1]; cbn [bind]; [| discriminate].
  pose proof
    (resolve_stage_label_spec get_labels TRANSFORMERS_SEQ_CLASSIFIER cfg1)
    as H2.
  destruct (resolve_stage_label get_labels TRANSFORMERS_SEQ_CLASSIFIER cfg1)
    as [cfg2 | e2]; cbn [bind]; [| discriminate].
  intros [= <-].
  destruct H1 as (_ & Hother1 & Hkeys1 & _).
  destruct H2 as (_ & Hother2 & Hkeys2 & _).
  split; [| congruence].
  intros k Hk.
  assert (Hn : k <> TRANSFORMERS_NER).
  { intros ->. apply Hk. apply In_TRF_PIPES. right.
    apply In_TRF_TASKS. now right. }
  assert (Hs : k <> TRANSFORMERS_SEQ_CLASSIFIER).
  { intros ->. apply Hk. apply In_TRF_PIPES. right.
    apply In_TRF_TASKS. now left. }
  rewrite Hother2 by assumption. now apply Hother1.
Qed.

(** C9. When resolution returns, every stage name that is none of the
    four advanced-backend names has in the result the settings it had (and
    is absent if it was), the stages of the given pipeline stand in the
    result in the order they had, and no stage stands twice. *)
Theorem resolution_frame (cfg cfg' : NLPConfig.t) :
  wf_dict (pipeline cfg) ->
  correct_nlp_config cfg = Ok cfg' ->
  (forall k, ~ In k TRF_PIPES ->
     dict_get (pipeline cfg') k = dict_get (pipeline cfg) k)
  /\ filter (contains (keys (pipeline cfg))) (keys (pipeline cfg'))
     = keys (pipeline cfg)
  /\ wf_dict (pipeline cfg').
Proof.
  intros Hwf. unfold correct_nlp_config, _correct_trf_pipeline.
  destruct (complement_frame cfg Hwf) as (Hc1 & Hc2 & Hc3).
  set (cfg0 := _complement_trf_pipeline cfg) in *.
  destruct (_complement_trf_name cfg0) as [cfg1 | e] eqn:E1; cbn [bind];
    [| discriminate].
  destruct (complement_trf_name_frame cfg0 cfg1 E1) as (Hn1 & Hn2).
  destruct (_resolve_label (_correct_torch cfg1)) as [cfg2 | e] eqn:E2;
    cbn [bind]; [| discriminate].
  destruct (resolve_label_frame _ _ E2) as (Hr1 & Hr2).
  rewrite pipeline_correct_torch in Hr1, Hr2.
  intros [= <-].
  split; [| split].
  - intros k Hk. rewrite Hr1, Hn1 by assumption. apply Hc1.
    intros Hb. apply Hk. apply In_TRF_PIPES. now left.
  - now rewrite Hr2, Hn2.
  - unfold wf_dict. now rewrite Hr2, Hn2.
Qed.

(** ** Completion, run again *)

Lemma completed_has_bases (cfg : NLPConfig.t) :
  wf_dict (pipeline cfg) ->
  intersects (keys (pipeline cfg)) TRF_TASKS = true ->
  intersects (keys (pipeline (_complement_trf_pipeline cfg))) TRF_TASKS = true
  /\ contains (keys (pipeline (_complement_trf_pipeline cfg)))
       TRANSFORMERS_TOKENIZER = true
  /\ contains (keys (pipeline (_complement_trf_pipeline cfg)))
       TRANSFORMERS_MODEL = true.
Proof.
  intros Hwf Htask.
  destruct (earliest_task_split _ Htask)
    as (before & t & s & after & Hp & Ht & Hb).
  rewrite (complement_shape cfg before after t s Hwf Hp Ht Hb).
  cbn [set_pipeline pipeline].
  set (missing := missing_bases (pipeline cfg)).
  assert (Hkeys : forall k,
            In k (keys (before
                          ++ map (fun k : string => (k, @nil (string * value)))
                               missing
                          ++ (t, s) :: after))
            <-> In k (keys (pipeline cfg)) \/ In k missing).
  { intros k. rewrite Hp, !keys_app, !in_app_iff.
    unfold keys at 2. rewrite map_map, map_id.
    split; intros H; decompose [or] H; auto. }
  assert (Hbase : forall k, In k TRF_BASES ->
            contains (keys (before
                              ++ map (fun k : string =>
                                        (k, @nil (string * value))) missing
                              ++ (t, s) :: after)) k = true).
  { intros k Hk. apply contains_In. apply Hkeys.
    destruct (contains (keys (pipeline cfg)) k) eqn:E.
    - left. now apply contains_In.
    - right. apply missing_bases_spec. split; [exact Hk |].
      now apply contains_not_In. }
  split; [| split].
  - apply existsb_exists. exists t. split.
    + apply Hkeys. left. rewrite Hp, keys_app. apply in_or_app.
      right. now left.
    + now apply contains_In.
  - apply Hbase. apply In_TRF_BASES. now left.
  - apply Hbase. apply In_TRF_BASES. now right.
Qed.

(** Completion is idempotent: a completed pipeline is complete. *)
Theorem complement_idempotent (cfg : NLPConfig.t) :
  wf_dict (pipeline cfg) ->
  _complement_trf_pipeline (_complement_trf_pipeline cfg)
  = _complement_trf_pipeline cfg.
Proof.
  intros Hwf.
  destruct (intersects (keys (pipeline cfg)) TRF_TASKS) eqn:Htask.
  - destruct (completed_has_bases cfg Hwf Htask) as (H1 & H2 & H3).
    destruct (complement_frame cfg Hwf) as (_ & _ & Hwf').
    now apply complement_with_bases.
  - now rewrite !(complement_without_task cfg Htask).
Qed.

(** ** End to end *)

Lemma pipe_names_eqb :
  String.eqb TRANSFORMERS_TOKENIZER TRANSFORMERS_MODEL = false
  /\ String.eqb TRANSFORMERS_TOKENIZER TRANSFORMERS_SEQ_CLASSIFIER = false
  /\ String.eqb TRANSFORMERS_MODEL TRANSFORMERS_TOKENIZER = false
  /\ String.eqb TRANSFORMERS_MODEL TRANSFORMERS_SEQ_CLASSIFIER = false
  /\ String.eqb TRANSFORMERS_SEQ_CLASSIFIER TRANSFORMERS_TOKENIZER = false
  /\ String.eqb TRANSFORMERS_SEQ_CLASSIFIER TRANSFORMERS_MODEL = false
  /\ String.eqb TRANSFORMERS_NER TRANSFORMERS_TOKENIZER = false
  /\ String.eqb TRANSFORMERS_NER TRANSFORMERS_MODEL = false
  /\ String.eqb TRANSFORMERS_NER TRANSFORMERS_SEQ_CLASSIFIER = false.
Proof.
  destruct pipe_names_differ as (H1 & H2 & H3 & H4 & H5 & H6).
  repeat split; apply String.eqb_neq; congruence.
Qed.

(** C4. Resolution of the config whose pipeline is the sequence
    classifier alone, with identifier [m1] and labels [pos], [neg], and
    whose language is [en] with the torch flag off, given that the label
    loader returns this inline list as it is: the result has the stages
    tokenizer, base model, sequence classifier in this order, each with
    identifier [m1], the torch flag on, and the classifier's labels [pos],
    [neg]; the rest of the config is as it was. *)
Theorem resolution_of_sequence_classifier (nm : value) (opt : dict value)
    (kw : option (dict value)) :
  get_labels (VList [VStr "pos"; VStr "neg"])
  = Ok (VList [VStr "pos"; VStr "neg"]) ->
  correct_nlp_config
    (NLPConfig.mk nm (LangConfig.mk "en" false opt kw)
       [(TRANSFORMERS_SEQ_CLASSIFIER,
         [(KEY, VStr "m1"); (LABELS, VList [VStr "pos"; VStr "neg"])])])
  = Ok (NLPConfig.mk nm (LangConfig.mk "en" true opt kw)
          [(TRANSFORMERS_TOKENIZER, [(KEY, VStr "m1")]);
           (TRANSFORMERS_MODEL, [(KEY, VStr "m1")]);
           (TRANSFORMERS_SEQ_CLASSIFIER,
            [(KEY, VStr "m1"); (LABELS, VList [VStr "pos"; VStr "neg"])])]).
Proof.
  intros Hlabels.
  destruct pipe_names_eqb as (E1 & E2 & E3 & E4 & E5 & E6 & E7 & E8 & E9).
  unfold correct_nlp_config, _correct_trf_pipeline, _complement_trf_pipeline,
    _complement_trf_name, _correct_torch, _resolve_label, resolve_stage_label,
    trf_task_indices, insert_missing_bases, dict_comprehension, write_trf_name,
    scan_trf_name, intersects, contains, getitem, get_default, set_pipeline,
    set_torch, TRF_PIPES, TRF_TASKS, TRF_BASES, insert, list_min.
  repeat (cbn;
          rewrite ?String.eqb_refl, ?E1, ?E2, ?E3, ?E4, ?E5, ?E6, ?E7, ?E8, ?E9,
            ?Hlabels).
  reflexivity.
Qed.

(** ** Propagation, run again, and what it touches *)

Lemma intersects_false (a b : list string) :
  intersects a b = false <-> forall k, In k a -> ~ In k b.
Proof.
  unfold intersects. split.
  - intros H k Ha Hb.
    assert (E : existsb (contains b) a = true).
    { apply existsb_exists. exists k. split; [exact Ha |].
      now apply contains_In. }
    congruence.
  - intros H. destruct (existsb (contains b) a) eqn:E; [| reflexivity].
    apply existsb_exists in E. destruct E as (k & Ha & Hb).
    apply contains_In in Hb. destruct (H k Ha Hb).
Qed.

Lemma dict_set_twice (V : Type) (d : dict V) (k : string) (v v' : V) :
  dict_set (dict_set d k v) k v' = dict_set d k v'.
Proof.
  induction d as [| [k0 v0] d IH]; cbn [dict_set].
  - now rewrite String.eqb_refl.
  - destruct (String.eqb k k0) eqn:E; cbn [dict_set]; rewrite E.
    + reflexivity.
    + now rewrite IH.
Qed.

Lemma write_trf_name_twice (p : Pipeline) (VAL VAL' : value) :
  write_trf_name (write_trf_name p VAL) VAL' = write_trf_name p VAL'.
Proof.
  unfold write_trf_name. rewrite map_map. apply map_ext.
  intros [k s]. destruct (contains TRF_PIPES k) eqn:E; rewrite E.
  - now rewrite dict_set_twice.
  - reflexivity.
Qed.

(** The scan of a pipeline that the identifier was written on. *)
Lemma scan_written (p : Pipeline) (VAL v0 : value) :
  truthy VAL = true ->
  scan_trf_name (write_trf_name p VAL) v0
  = if intersects (keys p) TRF_PIPES then VAL else v0.
Proof.
  intros HVAL. revert v0.
  induction p as [| [k s] p IH]; intros v0; [reflexivity |].
  cbn [write_trf_name map]. fold (write_trf_name p VAL).
  unfold intersects in *. cbn [keys map fst existsb].
  destruct (contains TRF_PIPES k) eqn:E.
  - rewrite scan_trf_name_cons. unfold declares. cbn [fst snd].
    rewrite E, getitem_set_same, HVAL. cbn [andb orb].
    rewrite IH. now destruct (existsb (contains TRF_PIPES) (keys p)).
  - rewrite scan_trf_name_cons. unfold declares. cbn [fst snd].
    rewrite E. cbn [andb orb]. apply IH.
Qed.

(** A config whose pipeline is one that propagation returned goes through
    propagation as it is. *)
Lemma complement_trf_name_settled (cfg cfg' c : NLPConfig.t) :
  _complement_trf_name cfg = Ok cfg' ->
  pipeline c = pipeline cfg' ->
  _complement_trf_name c = Ok c.
Proof.
  unfold _complement_trf_name.
  destruct (intersects (keys (pipeline cfg)) TRF_PIPES) eqn:Hi; cbn [negb].
  - destruct (truthy (scan_trf_name (pipeline cfg) (VStr EmptyString)))
      eqn:Ht; cbn [negb]; [| discriminate].
    intros [= <-]. cbn [set_pipeline pipeline]. intros Hc.
    destruct c as [n l q]. cbn [pipeline] in Hc. subst q. cbn [pipeline].
    rewrite keys_write_trf_name, Hi. cbn [negb].
    rewrite scan_written, Hi, Ht by exact Ht. cbn [negb].
    now rewrite write_trf_name_twice.
  - intros [= <-]. intros Hc. now rewrite Hc, Hi.
Qed.

(** Propagation is idempotent: when it returns a config, that config goes
    through it unchanged. *)
Theorem complement_trf_name_idempotent (cfg cfg' : NLPConfig.t) :
  _complement_trf_name cfg = Ok cfg' ->
  _complement_trf_name cfg' = Ok cfg'.
Proof.
  intros H. now apply (complement_trf_name_settled cfg cfg' cfg').
Qed.

(** When propagation returns, the stages are the given ones in the given
    order; in the settings of each, every entry but the identifier's is
    what it was; and a stage that is not advanced-backend has its settings
    whole. *)
Theorem complement_trf_name_touches_identifier_only
    (cfg cfg' : NLPConfig.t) :
  _complement_trf_name cfg = Ok cfg' ->
  Forall2
    (fun kv kv' : string * Settings =>
       fst kv' = fst kv
       /\ (forall k, k <> KEY -> dict_get (snd kv') k = dict_get (snd kv) k)
       /\ (contains TRF_PIPES (fst kv) = false -> snd kv' = snd kv))
    (pipeline cfg) (pipeline cfg')
  /\ lang cfg' = lang cfg
  /\ NLPConfig.name cfg' = NLPConfig.name cfg.
Proof.
  assert (Hsame : forall p : Pipeline,
            Forall2
              (fun kv kv' : string * Settings =>
                 fst kv' = fst kv
                 /\ (forall k, k <> KEY ->
                       dict_get (snd kv') k = dict_get (snd kv) k)
                 /\ (contains TRF_PIPES (fst kv) = false -> snd kv' = snd kv))
              p p).
  { induction p as [| kv p IH]; constructor; [now repeat split | exact IH]. }
  unfold _complement_trf_name.
  destruct (intersects (keys (pipeline cfg)) TRF_PIPES); cbn [negb].
  - destruct (truthy (scan_trf_name (pipeline cfg) (VStr EmptyString)));
      cbn [negb]; [| discriminate].
    intros [= <-]. cbn [set_pipeline pipeline lang NLPConfig.name].
    split; [| now split].
    generalize (scan_trf_name (pipeline cfg) (VStr EmptyString)) as VAL.
    intros VAL. induction (pipeline cfg) as [| [k s] p IH];
      cbn [write_trf_name map]; constructor; [| exact IH].
    cbn [fst snd]. destruct (contains TRF_PIPES k) eqn:E; cbn [fst snd].
    + split; [reflexivity |]. split; [| discriminate].
      intros k0 Hk0. now apply dict_get_set_other.
    + now repeat split.
  - intros [= <-]. split; [apply Hsame | now split].
Qed.

(** ** Pipelines of the plain backend *)

Lemma plain_has_no_task (cfg : NLPConfig.t) :
  intersects (keys (pipeline cfg)) TRF_PIPES = false ->
  intersects (keys (pipeline cfg)) TRF_TASKS = false.
Proof.
  intros Hi. apply intersects_false. intros k Hin Hk.
  apply (proj1 (intersects_false _ _) Hi k Hin).
  apply In_TRF_PIPES. now right.
Qed.

Lemma correct_trf_pipeline_plain (cfg : NLPConfig.t) :
  intersects (keys (pipeline cfg)) TRF_PIPES = false ->
  _correct_trf_pipeline cfg = Ok cfg.
Proof.
  intros Hi. unfold _correct_trf_pipeline.
  rewrite (complement_without_task cfg (plain_has_no_task cfg Hi)).
  unfold _complement_trf_name, _correct_torch. rewrite Hi. cbn [negb bind].
  now rewrite Hi.
Qed.

Lemma resolve_label_plain (cfg : NLPConfig.t) :
  intersects (keys (pipeline cfg)) TRF_PIPES = false ->
  _resolve_label cfg = Ok cfg.
Proof.
  intros Hi.
  assert (Hno : forall k, In k TRF_PIPES -> dict_get (pipeline cfg) k = None).
  { intros k Hk. apply dict_get_fresh. intros Hin.
    apply (proj1 (intersects_false _ _) Hi k Hin Hk). }
  unfold _resolve_label, resolve_stage_label.
  rewrite (Hno TRANSFORMERS_NER)
    by (apply In_TRF_PIPES; right; apply In_TRF_TASKS; now right).
  cbn [bind].
  rewrite (Hno TRANSFORMERS_SEQ_CLASSIFIER)
    by (apply In_TRF_PIPES; right; apply In_TRF_TASKS; now left).
  reflexivity.
Qed.

Lemma correct_nlp_config_plain (cfg : NLPConfig.t) :
  intersects (keys (pipeline cfg)) TRF_PIPES = false ->
  correct_nlp_config cfg = Ok cfg.
Proof.
  intros Hi. unfold correct_nlp_config.
  rewrite (correct_trf_pipeline_plain cfg Hi). cbn [bind].
  now rewrite (resolve_label_plain cfg Hi).
Qed.

(** A config with no advanced-backend stage in its pipeline goes through
    the whole resolution unchanged, and through each of its passes,
    whatever the torch flag is and whatever the label collaborators do. *)
Theorem resolution_of_plain_pipeline (cfg : NLPConfig.t) :
  intersects (keys (pipeline cfg)) TRF_PIPES = false ->
  correct_nlp_config cfg = Ok cfg
  /\ _complement_trf_pipeline cfg = cfg
  /\ _complement_trf_name cfg = Ok cfg
  /\ _correct_torch cfg = cfg
  /\ _resolve_label cfg = Ok cfg.
Proof.
  intros Hi.
  split; [now apply correct_nlp_config_plain |].
  split; [apply complement_without_task; now apply plain_has_no_task |].
  split; [unfold _complement_trf_name; now rewrite Hi |].
  split; [unfold _correct_torch; now rewrite Hi |].
  now apply resolve_label_plain.
Qed.

(** ** The three passes of [_correct_trf_pipeline] together *)

Lemma complement_keeps_lang (cfg : NLPConfig.t) :
  lang (_complement_trf_pipeline cfg) = lang cfg
  /\ NLPConfig.name (_complement_trf_pipeline cfg) = NLPConfig.name cfg.
Proof.
  unfold _complement_trf_pipeline.
  now destruct (trf_task_indices (keys (pipeline cfg))).
Qed.

Lemma completed_keeps_keys (cfg : NLPConfig.t) (k : string) :
  wf_dict (pipeline cfg) ->
  In k (keys (pipeline cfg)) ->
  In k (keys (pipeline (_complement_trf_pipeline cfg))).
Proof.
  intros Hwf Hk. destruct (complement_frame cfg Hwf) as (_ & Hf & _).
  rewrite <- Hf in Hk. apply filter_In in Hk. now destruct Hk.
Qed.

Lemma completed_intersects (cfg : NLPConfig.t) :
  wf_dict (pipeline cfg) ->
  intersects (keys (pipeline (_complement_trf_pipeline cfg))) TRF_PIPES
  = intersects (keys (pipeline cfg)) TRF_PIPES.
Proof.
  intros Hwf.
  destruct (intersects (keys (pipeline cfg)) TRF_PIPES) eqn:Hi.
  - unfold intersects in *. apply existsb_exists in Hi.
    destruct Hi as (k & Hk & Hadv). apply existsb_exists.
    exists k. split; [now apply completed_keeps_keys | exact Hadv].
  - rewrite complement_without_task; [exact Hi |].
    apply intersects_false. intros k Hin Hk.
    apply (proj1 (intersects_false _ _) Hi k Hin).
    apply In_TRF_PIPES. now right.
Qed.



Lemma correct_torch_idempotent (cfg : NLPConfig.t) :
  _correct_torch (_correct_torch cfg) = _correct_torch cfg.
Proof.
  unfold _correct_torch.
  destruct (intersects (keys (pipeline cfg)) TRF_PIPES) eqn:Hi.
  - cbn [set_torch pipeline]. now rewrite Hi.
  - now rewrite Hi.
Qed.

(** A config with the stage names of a completed pipeline is complete. *)
Lemma complement_same_keys (cfg c : NLPConfig.t) :
  wf_dict (pipeline cfg) ->
  keys (pipeline c) = keys (pipeline (_complement_trf_pipeline cfg)) ->
  _complement_trf_pipeline c = c.
Proof.
  intros Hwf Hkeys.
  destruct (complement_frame cfg Hwf) as (_ & _ & Hwf1).
  destruct (intersects (keys (pipeline cfg)) TRF_TASKS) eqn:Htask.
  - destruct (completed_has_bases cfg Hwf Htask) as (H1 & H2 & H3).
    rewrite <- Hkeys in H1, H2, H3.
    apply complement_with_bases; try assumption.
    unfold wf_dict. now rewrite Hkeys.
  - apply complement_without_task.
    rewrite Hkeys. now rewrite complement_without_task.
Qed.

(** When [_correct_trf_pipeline] returns: no stage stands twice; a pipeline
    that had a task stage has both base stages; a pipeline that had an
    advanced-backend stage has the torch flag on and one truthy identifier
    on every advanced-backend stage; a pipeline that had none gives the
    config back as it was; the rest of the language section and the name
    are never touched. *)
Theorem correct_trf_pipeline_result (cfg cfg' : NLPConfig.t) :
  wf_dict (pipeline cfg) ->
  _correct_trf_pipeline cfg = Ok cfg' ->
  wf_dict (pipeline cfg')
  /\ (intersects (keys (pipeline cfg)) TRF_TASKS = true ->
      contains (keys (pipeline cfg')) TRANSFORMERS_TOKENIZER = true
      /\ contains (keys (pipeline cfg')) TRANSFORMERS_MODEL = true)
  /\ (intersects (keys (pipeline cfg)) TRF_PIPES = true ->
      LangConfig.torch (lang cfg') = true
      /\ exists VAL : value,
           truthy VAL = true
           /\ forall k s, In (k, s) (pipeline cfg') -> In k TRF_PIPES ->
                          getitem s KEY = VAL)
  /\ (intersects (keys (pipeline cfg)) TRF_PIPES = false -> cfg' = cfg)
  /\ LangConfig.name (lang cfg') = LangConfig.name (lang cfg)
  /\ LangConfig.optimizer (lang cfg') = LangConfig.optimizer (lang cfg)
  /\ LangConfig.kwargs (lang cfg') = LangConfig.kwargs (lang cfg)
  /\ NLPConfig.name cfg' = NLPConfig.name cfg.
Proof.
  intros Hwf. unfold _correct_trf_pipeline.
  destruct (complement_frame cfg Hwf) as (_ & _ & Hwf1).
  destruct (complement_keeps_lang cfg) as (Hl1 & Hn1).
  pose proof (completed_intersects cfg Hwf) as Hi1.
  pose proof (completed_has_bases cfg Hwf) as Hbases.
  set (cfg1 := _complement_trf_pipeline cfg) in *.
  destruct (_complement_trf_name cfg1) as [cfg2 | e] eqn:E; cbn [bind];
    [| discriminate].
  intros [= <-].
  unfold _complement_trf_name in E. rewrite Hi1 in E.
  destruct (intersects (keys (pipeline cfg)) TRF_PIPES) eqn:Hi;
    cbn [negb] in E.
  - destruct (truthy (scan_trf_name (pipeline cfg1) (VStr EmptyString)))
      eqn:Ht; cbn [negb] in E; [| discriminate].
    injection E as <-.
    unfold _correct_torch. cbn [set_pipeline pipeline].
    rewrite keys_write_trf_name, Hi1.
    cbn [set_torch set_pipeline pipeline lang NLPConfig.name
           LangConfig.torch LangConfig.name LangConfig.optimizer
           LangConfig.kwargs].
    rewrite keys_write_trf_name.
    split; [unfold wf_dict; now rewrite keys_write_trf_name |].
    split; [intros Htask; now destruct (Hbases Htask) as (_ & H2 & H3) |].
    split.
    { intros _. split; [reflexivity |].
      exists (scan_trf_name (pipeline cfg1) (VStr EmptyString)).
      split; [exact Ht |].
      intros k s Hin Hk. apply write_trf_name_In in Hin.
      destruct Hin as (s0 & _ & ->). apply contains_In in Hk.
      rewrite Hk. apply getitem_set_same. }
    split; [discriminate |].
    now rewrite Hl1, Hn1.
  - injection E as <-.
    assert (Htask : intersects (keys (pipeline cfg)) TRF_TASKS = false).
    { apply intersects_false. intros k Hin Hk.
      apply (proj1 (intersects_false _ _) Hi k Hin).
      apply In_TRF_PIPES. now right. }
    assert (E1 : cfg1 = cfg) by now apply complement_without_task.
    unfold _correct_torch. rewrite Hi1.
    split; [exact Hwf1 |].
    split; [intros Htask'; congruence |].
    split; [discriminate |].
    split; [intros _; exact E1 |].
    now rewrite Hl1, Hn1.
Qed.

(** [_correct_trf_pipeline] is idempotent: a config it returned goes
    through it unchanged. *)
Theorem correct_trf_pipeline_idempotent (cfg cfg' : NLPConfig.t) :
  wf_dict (pipeline cfg) ->
  _correct_trf_pipeline cfg = Ok cfg' ->
  _correct_trf_pipeline cfg' = Ok cfg'.
Proof.
  intros Hwf. unfold _correct_trf_pipeline at 1.
  destruct (_complement_trf_name (_complement_trf_pipeline cfg))
    as [cfg2 | e] eqn:E; cbn [bind]; [| discriminate].
  intros [= <-].
  destruct (complement_trf_name_frame _ _ E) as (_ & Hkeys).
  unfold _correct_trf_pipeline.
  rewrite (complement_same_keys cfg (_correct_torch cfg2) Hwf)
    by now rewrite pipeline_correct_torch.
  rewrite (complement_trf_name_settled _ cfg2 (_correct_torch cfg2) E)
    by apply pipeline_correct_torch.
  cbn [bind]. now rewrite correct_torch_idempotent.
Qed.

(** ** The settings resolution leaves on the advanced-backend stages *)





Lemma resolve_label_stages (cfg cfg' : NLPConfig.t) :
  _resolve_label cfg = Ok cfg' ->
  stage_resolved get_biluo_labels
    (dict_get (pipeline cfg) TRANSFORMERS_NER)
    (dict_get (pipeline cfg') TRANSFORMERS_NER)
  /\ stage_resolved get_labels
       (dict_get (pipeline cfg) TRANSFORMERS_SEQ_CLASSIFIER)
       (dict_get (pipeline cfg') TRANSFORMERS_SEQ_CLASSIFIER)
  /\ (forall k, k <> TRANSFORMERS_NER -> k <> TRANSFORMERS_SEQ_CLASSIFIER ->
        dict_get (pipeline cfg') k = dict_get (pipeline cfg) k)
  /\ keys (pipeline cfg') = keys (pipeline cfg)
  /\ lang cfg' = lang cfg
  /\ NLPConfig.name cfg' = NLPConfig.name cfg.
Proof.
  destruct pipe_names_differ as (_ & _ & _ & _ & _ & Hsn).
  unfold _resolve_label.
  pose proof (resolve_stage_label_spec get_biluo_labels TRANSFORMERS_NER cfg)
    as H1.
  destruct (resolve_stage_label get_biluo_labels TRANSFORMERS_NER cfg)
    as [cfg1 | e1]; cbn [bind]; [| discriminate].
  destruct H1 as (Hner & Hother1 & Hkeys1 & Hlang1 & Hname1).
  pose proof
    (resolve_stage_label_spec get_labels TRANSFORMERS_SEQ_CLASSIFIER cfg1)
    as H2.
  destruct (resolve_stage_label get_labels TRANSFORMERS_SEQ_CLASSIFIER cfg1)
    as [cfg2 | e2]; cbn [bind]; [| discriminate].
  intros [= <-].
  destruct H2 as (Hseq & Hother2 & Hkeys2 & Hlang2 & Hname2).
  rewrite (Hother1 _ Hsn) in Hseq.
  rewrite (Hother2 TRANSFORMERS_NER) by congruence.
  split; [exact Hner |]. split; [exact Hseq |].
  split; [| split; [| split]]; try congruence.
  intros k Hk1 Hk2. rewrite Hother2 by assumption. now apply Hother1.
Qed.


(** ** A label collaborator that raises *)


(** ** Assembling the host *)

Lemma complement_trf_name_keeps_lang (cfg cfg' : NLPConfig.t) :
  _complement_trf_name cfg = Ok cfg' ->
  lang cfg' = lang cfg /\ NLPConfig.name cfg' = NLPConfig.name cfg.
Proof.
  unfold _complement_trf_name.
  destruct (intersects (keys (pipeline cfg)) TRF_PIPES); cbn [negb].
  - destruct (truthy (scan_trf_name (pipeline cfg) (VStr EmptyString)));
      cbn [negb]; [| discriminate].
    intros [= <-]. now split.
  - intros [= <-]. now split.
Qed.

(** Resolution changes nothing of the config outside the pipeline but the
    torch flag, which it sets when the pipeline has an advanced-backend
    stage. *)
Lemma resolution_keeps_lang (cfg cfg' : NLPConfig.t) :
  wf_dict (pipeline cfg) ->
  correct_nlp_config cfg = Ok cfg' ->
  NLPConfig.name cfg' = NLPConfig.name cfg
  /\ LangConfig.name (lang cfg') = LangConfig.name (lang cfg)
  /\ LangConfig.optimizer (lang cfg') = LangConfig.optimizer (lang cfg)
  /\ LangConfig.kwargs (lang cfg') = LangConfig.kwargs (lang cfg)
  /\ LangConfig.torch (lang cfg')
     = (intersects (keys (pipeline cfg)) TRF_PIPES
        || LangConfig.torch (lang cfg)).
Proof.
  intros Hwf. unfold correct_nlp_config, _correct_trf_pipeline.
  destruct (complement_keeps_lang cfg) as (Hl1 & Hn1).
  pose proof (completed_intersects cfg Hwf) as Hi1.
  set (cfg1 := _complement_trf_pipeline cfg) in *.
  destruct (_complement_trf_name cfg1) as [cfg2 | e] eqn:E1; cbn [bind];
    [| discriminate].
  destruct (complement_trf_name_keeps_lang _ _ E1) as (Hl2 & Hn2).
  destruct (complement_trf_name_frame _ _ E1) as (_ & Hk2).
  destruct (_resolve_label (_correct_torch cfg2)) as [cfg3 | e] eqn:E2;
    cbn [bind]; [| discriminate].
  destruct (resolve_label_stages _ _ E2) as (_ & _ & _ & _ & Hl3 & Hn3).
  intros [= <-]. rewrite Hl3, Hn3. unfold _correct_torch.
  rewrite Hk2, Hi1.
  destruct (intersects (keys (pipeline cfg)) TRF_PIPES);
    cbn [set_torch lang NLPConfig.name LangConfig.name LangConfig.torch
           LangConfig.optimizer LangConfig.kwargs orb];
    rewrite ?Hl2, ?Hn2, ?Hl1, ?Hn1; now repeat split.
Qed.

Section CreateModelFacts.

Variable Pipe : Type.
Variable create_pipe : Host.t Pipe -> string -> dict value -> result Pipe.

(** The factory made [pipe] for the stage [kv], on a host of the language
    [language]. *)
Definition made_from (language : Language) (kv : string * Settings)
    (pipe : Pipe) : Prop :=
  exists nlp : Host.t Pipe,
    Host.language nlp = language
    /\ create_pipe nlp (fst kv) (snd kv) = Ok pipe.

Lemma config_or_dict (config : Settings) :
  (if nonempty config then config else []) = config.
Proof. now destruct config. Qed.

(** The loop attaches one stage per item, in order, behind the stages the
    host has, and touches nothing else of the host. *)
Lemma add_pipes_spec (items : Pipeline) (nlp nlp' : Host.t Pipe) :
  add_pipes create_pipe nlp items = Ok nlp' ->
  Host.language nlp' = Host.language nlp
  /\ Host.meta_name nlp' = Host.meta_name nlp
  /\ exists pipes : list Pipe,
       Host.pipeline nlp' = Host.pipeline nlp ++ pipes
       /\ Forall2 (made_from (Host.language nlp)) items pipes.
Proof.
  revert nlp. induction items as [| [name config] items IH]; intros nlp.
  - cbn [add_pipes]. intros [= <-]. repeat split.
    exists []. split; [now rewrite app_nil_r | constructor].
  - cbn [add_pipes]. rewrite config_or_dict.
    destruct (create_pipe nlp name config) as [pipe | e] eqn:E; cbn [bind];
      [| discriminate].
    intros H. destruct (IH _ H) as (Hl & Hm & pipes & Hp & Hall).
    cbn [add_pipe Host.language Host.meta_name Host.pipeline] in *.
    split; [exact Hl |]. split; [exact Hm |].
    exists (pipe :: pipes). split.
    + rewrite Hp, <- app_assoc. reflexivity.
    + constructor; [| exact Hall]. now exists nlp.
Qed.

(** The steps of a [create_model] that returned. *)
Lemma create_model_steps (cfg : NLPConfig.t) (nlp : Host.t Pipe) :
  create_model create_pipe cfg = Ok nlp ->
  exists (cfg' : NLPConfig.t) (language : Language),
    correct_nlp_config cfg = Ok cfg'
    /\ create_lang (lang cfg') = Ok language
    /\ Host.language nlp = language
    /\ Forall2 (made_from language) (pipeline cfg') (Host.pipeline nlp)
    /\ Host.meta_name nlp
       = match NLPConfig.name cfg' with
         | VStr name =>
             if String.eqb name EmptyString then None else Some name
         | _ => None
         end.
Proof.
  unfold create_model.
  destruct (correct_nlp_config cfg) as [cfg' | e] eqn:E1; cbn [bind];
    [| discriminate].
  destruct (create_lang (lang cfg')) as [language | e] eqn:E2; cbn [bind];
    [| discriminate].
  destruct (add_pipes create_pipe (Host.mk language [] None) (pipeline cfg'))
    as [nlp0 | e] eqn:E3; cbn [bind]; [| discriminate].
  destruct (add_pipes_spec _ _ _ E3) as (Hl & Hm & pipes & Hp & Hall).
  cbn [Host.language Host.meta_name Host.pipeline app] in *.
  intros H. exists cfg', language. split; [reflexivity |].
  split; [exact E2 |].
  assert (G : Host.language nlp = language
              /\ Host.pipeline nlp = pipes
              /\ Host.meta_name nlp
                 = match NLPConfig.name cfg' with
                   | VStr name =>
                       if String.eqb name EmptyString then None
                       else Some name
                   | _ => None
                   end).
  { destruct (NLPConfig.name cfg') as [| b | z | name | xs | kvs];
      try (injection H as <-; now rewrite Hl, Hm, Hp).
    destruct (String.eqb name EmptyString); injection H as <-;
      cbn [set_meta_name Host.language Host.meta_name Host.pipeline];
      now rewrite ?Hl, ?Hm, ?Hp. }
  destruct G as (G1 & G2 & G3). rewrite G2. now repeat split.
Qed.

(** When [create_model] returns a host, resolution returned a config and
    the host has one stage per stage of that config, in pipeline order,
    each made by the factory from the stage's name and resolved settings;
    and the host's name is the name of the given config when that is a
    non-empty string, and is not set otherwise. *)
Theorem create_model_assembles (cfg : NLPConfig.t) (nlp : Host.t Pipe) :
  wf_dict (pipeline cfg) ->
  create_model create_pipe cfg = Ok nlp ->
  exists cfg' : NLPConfig.t,
    correct_nlp_config cfg = Ok cfg'
    /\ Forall2 (made_from (Host.language nlp)) (pipeline cfg')
         (Host.pipeline nlp)
    /\ List.length (Host.pipeline nlp)
       = List.length (pipeline cfg)
         + (if intersects (keys (pipeline cfg)) TRF_TASKS
            then List.length (missing_bases (pipeline cfg)) else 0)
    /\ Host.meta_name nlp
       = match NLPConfig.name cfg with
         | VStr name =>
             if String.eqb name EmptyString then None else Some name
         | _ => None
         end.
Proof.
  intros Hwf H.
  destruct (create_model_steps cfg nlp H)
    as (cfg' & language & E1 & E2 & Hl & Hall & Hm).
  destruct (resolution_keeps_lang cfg cfg' Hwf E1) as (Hn & _).
  exists cfg'. split; [exact E1 |]. rewrite Hl.
  split; [exact Hall |]. split; [| now rewrite <- Hn].
  rewrite <- (Forall2_length Hall).
  assert (Hkeys : keys (pipeline cfg')
                  = keys (pipeline (_complement_trf_pipeline cfg))).
  { unfold correct_nlp_config, _correct_trf_pipeline in E1.
    destruct (_complement_trf_name (_complement_trf_pipeline cfg))
      as [cfg2 | e] eqn:E3; cbn [bind] in E1; [| discriminate].
    destruct (_resolve_label (_correct_torch cfg2)) as [cfg3 | e] eqn:E4;
      cbn [bind] in E1; [| discriminate].
    injection E1 as <-.
    destruct (resolve_label_frame _ _ E4) as (_ & ->).
    rewrite pipeline_correct_torch.
    now destruct (complement_trf_name_frame _ _ E3) as (_ & ->). }
  rewrite <- (length_map fst (pipeline cfg')). fold (keys (pipeline cfg')).
  rewrite Hkeys.
  destruct (intersects (keys (pipeline cfg)) TRF_TASKS) eqn:Htask.
  - destruct (earliest_task_split _ Htask)
      as (before & t & s & after & Hp & Ht & Hb).
    rewrite (complement_shape cfg before after t s Hwf Hp Ht Hb).
    cbn [set_pipeline pipeline]. unfold keys.
    rewrite Hp at 2. rewrite !length_map, !length_app, length_map.
    cbn [List.length]. unfold Pipeline, Settings, dict. lia.
  - rewrite (complement_without_task cfg Htask). unfold keys.
    rewrite length_map. lia.
Qed.

(** A pipeline with an advanced-backend stage gets the advanced-backend
    host, whatever its torch flag says: when [create_model] returns, the
    host was made by [TorchLanguage] with the optimizer settings of the
    config, and kwargs whose [meta] is a mapping with the language name
    under [lang] and whose other entries are the kwargs of the config. *)
Theorem create_model_torch_host (cfg : NLPConfig.t) (nlp : Host.t Pipe) :
  wf_dict (pipeline cfg) ->
  intersects (keys (pipeline cfg)) TRF_PIPES = true ->
  create_model create_pipe cfg = Ok nlp ->
  exists (kwargs meta : dict value),
    Host.language nlp
    = TorchLanguage (LangConfig.optimizer (lang cfg)) kwargs
    /\ dict_get kwargs "meta" = Some (VDict meta)
    /\ dict_get meta "lang" = Some (VStr (LangConfig.name (lang cfg)))
    /\ (forall k, k <> "meta" ->
          dict_get kwargs k = dict_get (kwargs_or_empty (lang cfg)) k).
Proof.
  intros Hwf Hi H.
  destruct (create_model_steps cfg nlp H)
    as (cfg' & language & E1 & E2 & Hl & _).
  destruct (resolution_keeps_lang cfg cfg' Hwf E1)
    as (_ & Hname & Hopt & Hkw & Htorch).
  rewrite Hi in Htorch. cbn [orb] in Htorch.
  assert (Hkwargs : kwargs_or_empty (lang cfg') = kwargs_or_empty (lang cfg)).
  { unfold kwargs_or_empty. now rewrite Hkw. }
  unfold create_lang in E2. rewrite Htorch, Hkwargs, Hname, Hopt in E2.
  unfold merge in E2.
  destruct (get_default (kwargs_or_empty (lang cfg)) "meta" (VDict []))
    as [| b | z | str | xs | m]; cbn [bind] in E2; try discriminate.
  injection E2 as <-.
  eexists. eexists. split; [exact Hl |].
  split; [apply dict_get_set_same |].
  split.
  - unfold dict_update at 1. cbn [fold_left fst snd].
    apply dict_get_set_same.
  - intros k Hk. now apply dict_get_set_other.
Qed.

(** A pipeline of the plain backend with the torch flag off gets the blank
    host of the language, with the kwargs of the config, and the stages of
    the pipeline as they were given, in order. *)
Theorem create_model_plain_host (cfg : NLPConfig.t) (nlp : Host.t Pipe) :
  intersects (keys (pipeline cfg)) TRF_PIPES = false ->
  LangConfig.torch (lang cfg) = false ->
  create_model create_pipe cfg = Ok nlp ->
  Host.language nlp
  = blank (LangConfig.name (lang cfg)) (kwargs_or_empty (lang cfg))
  /\ Forall2 (made_from (Host.language nlp)) (pipeline cfg)
       (Host.pipeline nlp).
Proof.
  intros Hi Htorch H.
  destruct (create_model_steps cfg nlp H)
    as (cfg' & language & E1 & E2 & Hl & Hall & _).
  rewrite (correct_nlp_config_plain cfg Hi) in E1. injection E1 as <-.
  unfold create_lang in E2. rewrite Htorch in E2. injection E2 as <-.
  rewrite Hl. now split.
Qed.

End CreateModelFacts.

End Models.

(** ** Identifier propagation on the nodes of the config *)

Section NodeFacts.

Variable PIPES : list string.
Variable pretty : Nodes.Stages -> string.
Variable resolve : Nodes.Config -> string -> option value.

(** A stage is well given when its identifier can be read. *)
Lemma well_given_getitem (root : Nodes.Config) (v : Nodes.Stage) :
  Nodes.well_given resolve root v
  = match Nodes.getitem resolve root v KEY with
    | Ok _ => true
    | Err _ => false
    end.
Proof.
  unfold Nodes.well_given, Nodes.getitem.
  destruct v as [d |]; [| reflexivity].
  destruct (dict_get d KEY) as [[x | text |] |]; try reflexivity.
  now destruct (resolve root text).
Qed.

Lemma well_given_reads (root : Nodes.Config) (v : Nodes.Stage) :
  Nodes.well_given resolve root v = true ->
  Nodes.getitem resolve root v KEY = Ok (Nodes.identifier resolve root v).
Proof.
  rewrite well_given_getitem. unfold Nodes.identifier.
  now destruct (Nodes.getitem resolve root v KEY).
Qed.

(** No item access raises a [ValueError]. *)
Lemma getitem_no_value_error (root : Nodes.Config) (v : Nodes.Stage)
    (k msg : string) :
  Nodes.getitem resolve root v k <> Err (ValueError msg).
Proof.
  unfold Nodes.getitem. destruct v as [d |]; [| discriminate].
  destruct (dict_get d k) as [[x | text |] |]; try discriminate.
  destruct (resolve root text); discriminate.
Qed.

Lemma declares_reads (root : Nodes.Config) (k : string) (v : Nodes.Stage) :
  Nodes.declares PIPES resolve root (k, v) = true ->
  contains PIPES k = true
  /\ Nodes.getitem resolve root v KEY = Ok (Nodes.identifier resolve root v)
  /\ truthy (Nodes.identifier resolve root v) = true.
Proof.
  unfold Nodes.declares, Nodes.identifier. cbn [fst snd]. intros H.
  apply andb_true_iff in H. destruct H as [Hk H].
  destruct (Nodes.getitem resolve root v KEY); [| discriminate].
  now repeat split.
Qed.

Lemma scan_nodes_step (root : Nodes.Config) (k : string) (v : Nodes.Stage)
    (p : Nodes.Stages) (VAL : value) :
  negb (contains PIPES k) || Nodes.well_given resolve root v = true ->
  Nodes.scan_trf_name PIPES resolve root ((k, v) :: p) VAL
  = Nodes.scan_trf_name PIPES resolve root p
      (if Nodes.declares PIPES resolve root (k, v)
       then Nodes.identifier resolve root v
       else VAL).
Proof.
  intros H. cbn [Nodes.scan_trf_name]. unfold Nodes.declares. cbn [fst snd].
  destruct (contains PIPES k); cbn [negb orb andb] in *; [| reflexivity].
  rewrite (well_given_reads _ _ H). reflexivity.
Qed.

Lemma scan_nodes_app (root : Nodes.Config) (p1 p2 : Nodes.Stages)
    (VAL : value) :
  Nodes.scan_trf_name PIPES resolve root (p1 ++ p2) VAL
  = (y <- Nodes.scan_trf_name PIPES resolve root p1 VAL ;;
     Nodes.scan_trf_name PIPES resolve root p2 y).
Proof.
  revert VAL. induction p1 as [| [k v] p1 IH]; intros VAL; [reflexivity |].
  cbn [app Nodes.scan_trf_name]. destruct (contains PIPES k); [| apply IH].
  destruct (Nodes.getitem resolve root v KEY); cbn [bind];
    [apply IH | reflexivity].
Qed.

Lemma all_well_given_cons (root : Nodes.Config) (k : string)
    (v : Nodes.Stage) (p : Nodes.Stages) :
  Nodes.all_well_given PIPES resolve root ((k, v) :: p)
  = ((negb (contains PIPES k) || Nodes.well_given resolve root v)
     && Nodes.all_well_given PIPES resolve root p).
Proof. reflexivity. Qed.

Lemma all_well_given_app (root : Nodes.Config) (p1 p2 : Nodes.Stages) :
  Nodes.all_well_given PIPES resolve root (p1 ++ p2)
  = Nodes.all_well_given PIPES resolve root p1
    && Nodes.all_well_given PIPES resolve root p2.
Proof. unfold Nodes.all_well_given. apply forallb_app. Qed.

(** Stages that can be read and declare nothing leave [VAL] as it is. *)
Lemma scan_nodes_quiet (root : Nodes.Config) (p : Nodes.Stages)
    (VAL : value) :
  Nodes.all_well_given PIPES resolve root p = true ->
  forallb (fun kv => negb (Nodes.declares PIPES resolve root kv)) p = true ->
  Nodes.scan_trf_name PIPES resolve root p VAL = Ok VAL.
Proof.
  revert VAL. induction p as [| [k v] p IH]; intros VAL Hw Hq;
    [reflexivity |].
  rewrite all_well_given_cons in Hw. apply andb_true_iff in Hw.
  destruct Hw as [Hw1 Hw2].
  cbn [forallb] in Hq. apply andb_true_iff in Hq. destruct Hq as [Hq1 Hq2].
  rewrite (scan_nodes_step _ _ _ _ _ Hw1).
  apply negb_true_iff in Hq1. rewrite Hq1. now apply IH.
Qed.

(** The first loop ends when every advanced-backend stage can be read. *)
Lemma scan_nodes_total (root : Nodes.Config) (p : Nodes.Stages)
    (VAL : value) :
  Nodes.all_well_given PIPES resolve root p = true ->
  exists y, Nodes.scan_trf_name PIPES resolve root p VAL = Ok y.
Proof.
  revert VAL. induction p as [| [k v] p IH]; intros VAL Hw.
  - now exists VAL.
  - rewrite all_well_given_cons in Hw. apply andb_true_iff in Hw.
    destruct Hw as [Hw1 Hw2].
    rewrite (scan_nodes_step _ _ _ _ _ Hw1). now apply IH.
Qed.

Lemma scan_nodes_last (root : Nodes.Config) (p1 p2 : Nodes.Stages)
    (k : string) (v : Nodes.Stage) (VAL : value) :
  Nodes.all_well_given PIPES resolve root (p1 ++ (k, v) :: p2) = true ->
  Nodes.declares PIPES resolve root (k, v) = true ->
  forallb (fun kv => negb (Nodes.declares PIPES resolve root kv)) p2 = true ->
  Nodes.scan_trf_name PIPES resolve root (p1 ++ (k, v) :: p2) VAL
  = Ok (Nodes.identifier resolve root v).
Proof.
  intros Hw Hd Hq.
  rewrite all_well_given_app, all_well_given_cons in Hw.
  apply andb_true_iff in Hw. destruct Hw as [Hw1 Hw].
  apply andb_true_iff in Hw. destruct Hw as [Hwv Hw2].
  rewrite scan_nodes_app.
  destruct (scan_nodes_total root p1 VAL Hw1) as [y ->]. cbn [bind].
  rewrite (scan_nodes_step _ _ _ _ _ Hwv), Hd.
  now apply scan_nodes_quiet.
Qed.

(** The first loop ends only when every advanced-backend stage can be
    read. *)
Lemma scan_nodes_reads (root : Nodes.Config) (p : Nodes.Stages)
    (VAL y : value) :
  Nodes.scan_trf_name PIPES resolve root p VAL = Ok y ->
  Nodes.all_well_given PIPES resolve root p = true.
Proof.
  revert VAL. induction p as [| [k v] p IH]; intros VAL H; [reflexivity |].
  rewrite all_well_given_cons. cbn [Nodes.scan_trf_name] in H.
  destruct (contains PIPES k); cbn [negb orb].
  - rewrite well_given_getitem.
    destruct (Nodes.getitem resolve root v KEY); cbn [bind] in H;
      [| discriminate].
    exact (IH _ H).
  - exact (IH _ H).
Qed.

(** The first loop stops at the first advanced-backend stage whose
    identifier cannot be read, with the exception of that access. *)
Lemma scan_nodes_first_error (root : Nodes.Config) (p1 p2 : Nodes.Stages)
    (k : string) (v : Nodes.Stage) (VAL : value) (e : exn) :
  Nodes.all_well_given PIPES resolve root p1 = true ->
  contains PIPES k = true ->
  Nodes.getitem resolve root v KEY = Err e ->
  Nodes.scan_trf_name PIPES resolve root (p1 ++ (k, v) :: p2) VAL = Err e.
Proof.
  intros Hw Hk He. rewrite scan_nodes_app.
  destruct (scan_nodes_total root p1 VAL Hw) as [y ->]. cbn [bind].
  cbn [Nodes.scan_trf_name]. now rewrite Hk, He.
Qed.

Lemma scan_nodes_error_split (root : Nodes.Config) (p : Nodes.Stages)
    (VAL : value) (e : exn) :
  Nodes.scan_trf_name PIPES resolve root p VAL = Err e ->
  exists p1 k v p2,
    p = p1 ++ (k, v) :: p2
    /\ Nodes.all_well_given PIPES resolve root p1 = true
    /\ contains PIPES k = true
    /\ Nodes.getitem resolve root v KEY = Err e.
Proof.
  revert VAL. induction p as [| [k v] p IH]; intros VAL H; [discriminate |].
  cbn [Nodes.scan_trf_name] in H.
  destruct (contains PIPES k) eqn:Ek.
  - destruct (Nodes.getitem resolve root v KEY) as [x | e0] eqn:Eg;
      cbn [bind] in H.
    + destruct (IH _ H) as (p1 & k' & v' & p2 & -> & Hw & Hk' & He).
      exists ((k, v) :: p1), k', v', p2. repeat split; try assumption.
      rewrite all_well_given_cons, Ek, well_given_getitem, Eg. exact Hw.
    + injection H as ->. exists [], k, v, p. now repeat split.
  - destruct (IH _ H) as (p1 & k' & v' & p2 & -> & Hw & Hk' & He).
    exists ((k, v) :: p1), k', v', p2. repeat split; try assumption.
    rewrite all_well_given_cons, Ek. exact Hw.
Qed.

(** The second loop on stages that have their settings mappings. *)
Lemma write_nodes_well_given (root : Nodes.Config) (p : Nodes.Stages)
    (VAL : value) :
  Nodes.all_well_given PIPES resolve root p = true ->
  Nodes.write_trf_name PIPES p VAL
  = Ok (map (Nodes.put_identifier PIPES VAL) p).
Proof.
  induction p as [| [k v] p IH]; intros Hw; [reflexivity |].
  rewrite all_well_given_cons in Hw. apply andb_true_iff in Hw.
  destruct Hw as [Hw1 Hw2].
  cbn [Nodes.write_trf_name map]. unfold Nodes.put_identifier at 1.
  cbn [fst snd]. rewrite (IH Hw2).
  destruct (contains PIPES k); cbn [negb orb] in Hw1; [| reflexivity].
  destruct v as [d |]; [reflexivity | discriminate].
Qed.

Lemma keys_put_identifier (p : Nodes.Stages) (VAL : value) :
  keys (map (Nodes.put_identifier PIPES VAL) p) = keys p.
Proof.
  unfold keys. rewrite map_map. apply map_ext. intros [k v].
  unfold Nodes.put_identifier. cbn [fst snd].
  now destruct (contains PIPES k).
Qed.

Lemma put_identifier_written (root : Nodes.Config) (p : Nodes.Stages)
    (VAL : value) (k : string) (v' : Nodes.Stage) :
  Nodes.all_well_given PIPES resolve root p = true ->
  In (k, v') (map (Nodes.put_identifier PIPES VAL) p) ->
  contains PIPES k = true ->
  exists d, In (k, Some d) p
    /\ v' = Some (dict_set d KEY (Nodes.Plain VAL)).
Proof.
  intros Hw Hin Hk. apply in_map_iff in Hin.
  destruct Hin as ([k0 v0] & E & Hin).
  unfold Nodes.all_well_given in Hw. rewrite forallb_forall in Hw.
  specialize (Hw _ Hin). cbn [fst snd] in Hw.
  unfold Nodes.put_identifier in E. cbn [fst snd] in E.
  destruct (contains PIPES k0) eqn:Ek0.
  - injection E as <- <-. cbn [negb orb] in Hw.
    destruct v0 as [d |]; [| discriminate].
    exists d. now split.
  - injection E as <- <-. rewrite Hk in Ek0. discriminate.
Qed.

Lemma existsb_last_split (A : Type) (f : A -> bool) (l : list A) :
  existsb f l = true ->
  exists l1 a l2,
    l = l1 ++ a :: l2
    /\ f a = true
    /\ forallb (fun x => negb (f x)) l2 = true.
Proof.
  induction l as [| a l IH]; [discriminate |].
  cbn [existsb]. intros H.
  destruct (existsb f l) eqn:E.
  - destruct (IH eq_refl) as (l1 & a' & l2 & -> & Ha & Hl2).
    exists (a :: l1), a', l2. now repeat split.
  - rewrite orb_false_r in H.
    exists [], a, l. repeat split; [assumption |].
    clear -E. induction l as [| x l IH]; [reflexivity |].
    cbn [existsb forallb] in *. apply orb_false_iff in E.
    destruct E as [-> E]. now apply IH.
Qed.

Lemma stage_of_pipes_intersects (p : Nodes.Stages) (k : string) :
  In k (keys p) -> contains PIPES k = true ->
  intersects (keys p) PIPES = true.
Proof.
  intros Hin Hk. unfold intersects. apply existsb_exists.
  exists k. now split.
Qed.

Lemma node_declares_intersects (root : Nodes.Config) (p : Nodes.Stages) :
  existsb (Nodes.declares PIPES resolve root) p = true ->
  intersects (keys p) PIPES = true.
Proof.
  rewrite existsb_exists. intros ([k v] & Hin & Hd).
  apply declares_reads in Hd. destruct Hd as [Hk _].
  apply (stage_of_pipes_intersects p k); [| exact Hk].
  unfold keys. change k with (fst (k, v)). now apply in_map.
Qed.

(** The pass on a config whose advanced-backend stages can all be read
    and whose last declaring stage is [(k, v)]. *)
Lemma propagation_last (cfg : Nodes.Config) (p1 p2 : Nodes.Stages)
    (k : string) (v : Nodes.Stage) :
  Nodes.all_well_given PIPES resolve cfg (Nodes.pipeline cfg) = true ->
  Nodes.pipeline cfg = p1 ++ (k, v) :: p2 ->
  Nodes.declares PIPES resolve cfg (k, v) = true ->
  forallb (fun kv => negb (Nodes.declares PIPES resolve cfg kv)) p2 = true ->
  Nodes._complement_trf_name PIPES pretty resolve cfg
  = Ok (Nodes.set_pipeline cfg
          (map (Nodes.put_identifier PIPES (Nodes.identifier resolve cfg v))
             (Nodes.pipeline cfg))).
Proof.
  intros Hw Hp Hd Hq. unfold Nodes._complement_trf_name.
  assert (Hi : intersects (keys (Nodes.pipeline cfg)) PIPES = true).
  { apply (node_declares_intersects cfg). rewrite Hp, existsb_app.
    cbn [existsb]. rewrite Hd. now rewrite orb_true_r. }
  assert (Hscan : Nodes.scan_trf_name PIPES resolve cfg (Nodes.pipeline cfg)
                    (VStr EmptyString)
                  = Ok (Nodes.identifier resolve cfg v)).
  { rewrite Hp. apply scan_nodes_last; [now rewrite <- Hp | exact Hd
                                        | exact Hq]. }
  rewrite Hi, Hscan. cbn [negb bind].
  destruct (declares_reads _ _ _ Hd) as (_ & _ & ->). cbn [negb].
  now rewrite (write_nodes_well_given cfg _ _ Hw).
Qed.

(** What the first loop leaves in [VAL] when every advanced-backend stage
    can be read and none declares. *)
Lemma propagation_quiet (cfg : Nodes.Config) :
  intersects (keys (Nodes.pipeline cfg)) PIPES = true ->
  Nodes.all_well_given PIPES resolve cfg (Nodes.pipeline cfg) = true ->
  existsb (Nodes.declares PIPES resolve cfg) (Nodes.pipeline cfg) = false ->
  Nodes._complement_trf_name PIPES pretty resolve cfg
  = Err (ValueError
           (missing_name_header ++ pretty (Nodes.pipeline cfg))%string).
Proof.
  intros Hi Hw Hd. unfold Nodes._complement_trf_name. rewrite Hi.
  cbn [negb]. rewrite scan_nodes_quiet; [reflexivity | exact Hw |].
  clear -Hd. induction (Nodes.pipeline cfg) as [| kv p IH]; [reflexivity |].
  cbn [existsb forallb] in *. apply orb_false_iff in Hd.
  destruct Hd as [-> Hd]. now apply IH.
Qed.

(** The pass stops at the first advanced-backend stage whose identifier
    cannot be read. *)
Lemma propagation_unreadable (cfg : Nodes.Config) (p1 p2 : Nodes.Stages)
    (k : string) (v : Nodes.Stage) (e : exn) :
  Nodes.pipeline cfg = p1 ++ (k, v) :: p2 ->
  Nodes.all_well_given PIPES resolve cfg p1 = true ->
  contains PIPES k = true ->
  Nodes.getitem resolve cfg v KEY = Err e ->
  Nodes._complement_trf_name PIPES pretty resolve cfg = Err e.
Proof.
  intros Hp Hw Hk He. unfold Nodes._complement_trf_name.
  rewrite (stage_of_pipes_intersects (Nodes.pipeline cfg) k).
  - cbn [negb]. rewrite Hp.
    now rewrite (scan_nodes_first_error cfg p1 p2 k v _ e Hw Hk He).
  - rewrite Hp, keys_app. apply in_or_app. right. now left.
  - exact Hk.
Qed.

(** An exception of the pass is the [ValueError] of the pass or the one
    of reading the identifier of an advanced-backend stage. *)
Lemma propagation_errors (cfg : Nodes.Config) (e : exn) :
  Nodes._complement_trf_name PIPES pretty resolve cfg = Err e ->
  (e = ValueError
         (missing_name_header ++ pretty (Nodes.pipeline cfg))%string
   /\ intersects (keys (Nodes.pipeline cfg)) PIPES = true
   /\ Nodes.all_well_given PIPES resolve cfg (Nodes.pipeline cfg) = true
   /\ existsb (Nodes.declares PIPES resolve cfg) (Nodes.pipeline cfg)
      = false)
  \/ (exists p1 k v p2,
        Nodes.pipeline cfg = p1 ++ (k, v) :: p2
        /\ Nodes.all_well_given PIPES resolve cfg p1 = true
        /\ contains PIPES k = true
        /\ Nodes.getitem resolve cfg v KEY = Err e).
Proof.
  unfold Nodes._complement_trf_name.
  destruct (intersects (keys (Nodes.pipeline cfg)) PIPES) eqn:Hi;
    cbn [negb]; [| discriminate].
  destruct (Nodes.scan_trf_name PIPES resolve cfg (Nodes.pipeline cfg)
              (VStr EmptyString)) as [VAL | e0] eqn:Hscan; cbn [bind].
  - pose proof (scan_nodes_reads _ _ _ _ Hscan) as Hw.
    destruct (truthy VAL) eqn:Ht; cbn [negb].
    + rewrite (write_nodes_well_given cfg _ _ Hw). discriminate.
    + intros H. injection H as <-. left. repeat split; try assumption.
      destruct (existsb (Nodes.declares PIPES resolve cfg)
                  (Nodes.pipeline cfg)) eqn:Hd; [| reflexivity].
      apply existsb_last_split in Hd.
      destruct Hd as (p1 & [k v] & p2 & Hp & Hd & Hq).
      rewrite Hp in Hscan, Hw.
      rewrite (scan_nodes_last cfg p1 p2 k v _ Hw Hd Hq) in Hscan.
      injection Hscan as <-.
      destruct (declares_reads _ _ _ Hd) as (_ & _ & Htrue).
      rewrite Htrue in Ht. discriminate.
  - intros H. injection H as <-. right.
    now apply (scan_nodes_error_split cfg _ _ _ Hscan).
Qed.

(** C2, amended. On a config every advanced-backend stage of which has a
    settings mapping whose entry under [trf_name_or_path], if any, is a
    plain value or an interpolation that resolves, and in which two
    advanced-backend stages declare different non-empty identifiers, the
    pass returns: it takes what the last declaring stage in pipeline order
    reads under the key, the resolved value where the entry is an
    interpolation, and stores that one value as a plain value on every
    advanced-backend stage, so that all of them hold it afterwards; the
    key order, the other stages, [lang] and [name] are as they were. *)
Theorem propagation_last_declaration_wins (cfg : Nodes.Config)
    (a b : string * Nodes.Stage) :
  Nodes.all_well_given PIPES resolve cfg (Nodes.pipeline cfg) = true ->
  In a (Nodes.pipeline cfg) ->
  In b (Nodes.pipeline cfg) ->
  Nodes.declares PIPES resolve cfg a = true ->
  Nodes.declares PIPES resolve cfg b = true ->
  Nodes.identifier resolve cfg (snd a)
  <> Nodes.identifier resolve cfg (snd b) ->
  exists p1 p2 k v cfg',
    Nodes.pipeline cfg = p1 ++ (k, v) :: p2
    /\ Nodes.declares PIPES resolve cfg (k, v) = true
    /\ forallb (fun kv => negb (Nodes.declares PIPES resolve cfg kv)) p2
       = true
    /\ Nodes._complement_trf_name PIPES pretty resolve cfg = Ok cfg'
    /\ Nodes.pipeline cfg'
       = map (Nodes.put_identifier PIPES (Nodes.identifier resolve cfg v))
           (Nodes.pipeline cfg)
    /\ keys (Nodes.pipeline cfg') = keys (Nodes.pipeline cfg)
    /\ (forall k' v',
          In (k', v') (Nodes.pipeline cfg') -> In k' PIPES ->
          exists d,
            v' = Some d
            /\ dict_get d KEY
               = Some (Nodes.Plain (Nodes.identifier resolve cfg v)))
    /\ Nodes.lang cfg' = Nodes.lang cfg
    /\ Nodes.name cfg' = Nodes.name cfg.
Proof.
  intros Hw Ha _ Hda _ _.
  assert (Hex : existsb (Nodes.declares PIPES resolve cfg)
                  (Nodes.pipeline cfg) = true).
  { apply existsb_exists. now exists a. }
  apply existsb_last_split in Hex.
  destruct Hex as (p1 & [k v] & p2 & Hp & Hd & Hq).
  exists p1, p2, k, v.
  eexists. split; [exact Hp |]. split; [exact Hd |]. split; [exact Hq |].
  split; [exact (propagation_last cfg p1 p2 k v Hw Hp Hd Hq) |].
  cbn [Nodes.set_pipeline Nodes.pipeline Nodes.lang Nodes.name].
  split; [reflexivity |]. split; [apply keys_put_identifier |].
  split; [| split; reflexivity].
  intros k' v' Hin Hk'. apply contains_In in Hk'.
  destruct (put_identifier_written cfg _ _ _ _ Hw Hin Hk')
    as (d & _ & ->).
  exists (dict_set d KEY (Nodes.Plain (Nodes.identifier resolve cfg v))).
  split; [reflexivity | apply dict_get_set_same].
Qed.

(** C10, amended. On a config with an advanced-backend stage whose
    settings mapping has no entry under [trf_name_or_path], the access
    [v[KEY]] of the first loop raises nothing and reads [None]: the stage
    declares nothing, and the loop goes as if the stage held the empty
    string under the key.  When every advanced-backend stage has a
    settings mapping whose entry under the key, if any, is a plain value
    or an interpolation that resolves, the pass returns if a stage
    declares an identifier and raises the [ValueError] of the missing
    identifier if none does.  On any config, an exception of the pass is
    that [ValueError] or the exception that reading the identifier of
    another advanced-backend stage raises. *)
Theorem propagation_missing_key_reads_empty (cfg : Nodes.Config)
    (p1 p2 : Nodes.Stages) (k : string) (d : Nodes.Mapping) :
  Nodes.pipeline cfg = p1 ++ (k, Some d) :: p2 ->
  In k PIPES ->
  dict_get d KEY = None ->
  Nodes.getitem resolve cfg (Some d) KEY = Ok VNone
  /\ Nodes.declares PIPES resolve cfg (k, Some d) = false
  /\ (forall VAL,
        Nodes.scan_trf_name PIPES resolve cfg (Nodes.pipeline cfg) VAL
        = Nodes.scan_trf_name PIPES resolve cfg
            (p1
             ++ (k, Some (dict_set d KEY (Nodes.Plain (VStr EmptyString))))
             :: p2)
            VAL)
  /\ (Nodes.all_well_given PIPES resolve cfg (Nodes.pipeline cfg) = true ->
      (existsb (Nodes.declares PIPES resolve cfg) (Nodes.pipeline cfg)
       = true ->
       exists cfg',
         Nodes._complement_trf_name PIPES pretty resolve cfg = Ok cfg')
      /\ (existsb (Nodes.declares PIPES resolve cfg) (Nodes.pipeline cfg)
          = false ->
          Nodes._complement_trf_name PIPES pretty resolve cfg
          = Err (ValueError
                   (missing_name_header
                    ++ pretty (Nodes.pipeline cfg))%string)))
  /\ (forall e,
        Nodes._complement_trf_name PIPES pretty resolve cfg = Err e ->
        e = ValueError
              (missing_name_header ++ pretty (Nodes.pipeline cfg))%string
        \/ exists k' v',
             In (k', v') (p1 ++ p2)
             /\ In k' PIPES
             /\ Nodes.getitem resolve cfg v' KEY = Err e).
Proof.
  intros Hp Hk Hnone. apply contains_In in Hk.
  assert (Hget : Nodes.getitem resolve cfg (Some d) KEY = Ok VNone).
  { unfold Nodes.getitem. now rewrite Hnone. }
  split; [exact Hget |].
  split.
  { unfold Nodes.declares. cbn [fst snd]. rewrite Hget.
    apply andb_false_r. }
  split.
  { intros VAL. rewrite Hp, !scan_nodes_app.
    destruct (Nodes.scan_trf_name PIPES resolve cfg p1 VAL) as [y |];
      [| reflexivity].
    cbn [bind Nodes.scan_trf_name]. rewrite Hk, Hget.
    unfold Nodes.getitem. rewrite dict_get_set_same. reflexivity. }
  split.
  { intros Hw. split.
    - intros Hex. apply existsb_last_split in Hex.
      destruct Hex as (q1 & [k' v'] & q2 & Hq & Hd & Hquiet).
      eexists. exact (propagation_last cfg q1 q2 k' v' Hw Hq Hd Hquiet).
    - intros Hex. apply propagation_quiet; [| exact Hw | exact Hex].
      apply (stage_of_pipes_intersects (Nodes.pipeline cfg) k);
        [| exact Hk].
      rewrite Hp, keys_app. apply in_or_app. right. now left. }
  intros e He. apply propagation_errors in He.
  destruct He as [[-> _] | (q1 & k' & v' & q2 & Hq & _ & Hk' & Hread)];
    [now left | right].
  exists k', v'. split; [| split; [now apply contains_In | exact Hread]].
  assert (Hin : In (k', v') (Nodes.pipeline cfg)).
  { rewrite Hq. apply in_or_app. right. now left. }
  rewrite Hp in Hin. apply in_app_or in Hin. apply in_or_app.
  destruct Hin as [Hin | [E | Hin]]; [now left | | now right].
  injection E as <- <-. rewrite Hget in Hread. discriminate.
Qed.

(** The pass reads the identifier of the advanced-backend stages in
    pipeline order and raises what the first failing access raises,
    before it writes anything and whatever the other stages declare:
    [TypeError] on a stage with nothing under its name, [KeyError] on an
    interpolation that does not resolve, [MissingMandatoryValue] on
    [???]. *)
Theorem propagation_first_unreadable_stage (cfg : Nodes.Config)
    (p1 p2 : Nodes.Stages) (k : string) (v : Nodes.Stage) :
  Nodes.pipeline cfg = p1 ++ (k, v) :: p2 ->
  Nodes.all_well_given PIPES resolve cfg p1 = true ->
  In k PIPES ->
  Nodes.well_given resolve cfg v = false ->
  exists e,
    Nodes._complement_trf_name PIPES pretty resolve cfg = Err e
    /\ Nodes.getitem resolve cfg v KEY = Err e
    /\ ((v = None
         /\ e = TypeError "'NoneType' object is not subscriptable")
        \/ (exists d text,
              v = Some d
              /\ dict_get d KEY = Some (Nodes.Interpolation text)
              /\ resolve cfg text = None
              /\ e = KeyError text)
        \/ (exists d,
              v = Some d
              /\ dict_get d KEY = Some Nodes.Mandatory
              /\ e = Raised "MissingMandatoryValue")).
Proof.
  intros Hp Hw Hk Hv. apply contains_In in Hk.
  assert (He : exists e,
             Nodes.getitem resolve cfg v KEY = Err e
             /\ ((v = None
                  /\ e = TypeError "'NoneType' object is not subscriptable")
                 \/ (exists d text,
                       v = Some d
                       /\ dict_get d KEY = Some (Nodes.Interpolation text)
                       /\ resolve cfg text = None
                       /\ e = KeyError text)
                 \/ (exists d,
                       v = Some d
                       /\ dict_get d KEY = Some Nodes.Mandatory
                       /\ e = Raised "MissingMandatoryValue"))).
  { unfold Nodes.well_given in Hv. unfold Nodes.getitem.
    destruct v as [d |].
    - destruct (dict_get d KEY) as [[x | text |] |] eqn:Ed;
        try discriminate.
      + destruct (resolve cfg text) eqn:Er; [discriminate |].
        eexists. split; [reflexivity |]. right. left.
        exists d, text. now repeat split.
      + eexists. split; [reflexivity |]. right. right.
        exists d. now repeat split.
    - eexists. split; [reflexivity |]. left. now split. }
  destruct He as (e & Hread & Hkind). exists e.
  split; [| split; assumption].
  exact (propagation_unreadable cfg p1 p2 k v e Hp Hw Hk Hread).
Qed.

(** The pass raises the [ValueError] of the missing identifier, its
    message ending in the rendering of the pipeline, exactly on a config
    that has an advanced-backend stage, every advanced-backend stage of
    which can be read, and none of which declares an identifier; on a
    config with no advanced-backend stage it returns the config as it
    is. *)
Theorem propagation_missing_identifier (cfg : Nodes.Config) :
  (forall msg,
     Nodes._complement_trf_name PIPES pretty resolve cfg
     = Err (ValueError msg)
     <-> intersects (keys (Nodes.pipeline cfg)) PIPES = true
         /\ Nodes.all_well_given PIPES resolve cfg (Nodes.pipeline cfg)
            = true
         /\ existsb (Nodes.declares PIPES resolve cfg) (Nodes.pipeline cfg)
            = false
         /\ msg = (missing_name_header
                   ++ pretty (Nodes.pipeline cfg))%string)
  /\ (intersects (keys (Nodes.pipeline cfg)) PIPES = false ->
      Nodes._complement_trf_name PIPES pretty resolve cfg = Ok cfg).
Proof.
  split.
  - intros msg. split.
    + intros H. apply propagation_errors in H.
      destruct H as [(E & Hi & Hw & Hd) | (p1 & k & v & p2 & _ & _ & _ & H)].
      * injection E as ->. now repeat split.
      * now apply getitem_no_value_error in H.
    + intros (Hi & Hw & Hd & ->). now apply propagation_quiet.
  - intros Hi. unfold Nodes._complement_trf_name. now rewrite Hi.
Qed.

End NodeFacts.

(** ** The two embeddings of the pass *)

Section Embeddings.

Variables TRANSFORMERS_TOKENIZER TRANSFORMERS_MODEL : string.
Variables TRANSFORMERS_SEQ_CLASSIFIER TRANSFORMERS_NER : string.
Variable pretty : Nodes.Stages -> string.
Variable resolve : Nodes.Config -> string -> option value.

#[local] Abbreviation PIPES :=
  (TRF_PIPES TRANSFORMERS_TOKENIZER TRANSFORMERS_MODEL
     TRANSFORMERS_SEQ_CLASSIFIER TRANSFORMERS_NER).








End Embeddings.

(** ** The theorems on camphr's own stage names *)

Import Camphr Examples.

#[local] Abbreviation TOK := Camphr.TRANSFORMERS_TOKENIZER.
#[local] Abbreviation MODEL := Camphr.TRANSFORMERS_MODEL.
#[local] Abbreviation SEQ := Camphr.TRANSFORMERS_SEQ_CLASSIFIER.
#[local] Abbreviation NER := Camphr.TRANSFORMERS_NER.


Lemma camphr_names_distinct :
  distinct [TOK; MODEL; SEQ; NER] = true.
Proof. reflexivity. Qed.

Lemma complement_inserts_missing_bases_witness :
  exists (before after : Pipeline) (t : string) (s : Settings)
         (missing : list string),
    pipeline ner_only = before ++ (t, s) :: after
    /\ In t (TRF_TASKS SEQ NER)
    /\ (forall k, In k (keys before) -> ~ In k (TRF_TASKS SEQ NER))
    /\ missing
       = (if contains (keys (pipeline ner_only)) TOK then [] else [TOK])
         ++ (if contains (keys (pipeline ner_only)) MODEL then [] else [MODEL])
    /\ missing <> []
    /\ pipeline (_complement_trf_pipeline TOK MODEL SEQ NER ner_only)
       = before ++ map (fun k => (k, [])) missing ++ (t, s) :: after
    /\ wf_dict (pipeline (_complement_trf_pipeline TOK MODEL SEQ NER ner_only))
    /\ lang (_complement_trf_pipeline TOK MODEL SEQ NER ner_only)
       = lang ner_only
    /\ NLPConfig.name (_complement_trf_pipeline TOK MODEL SEQ NER ner_only)
       = NLPConfig.name ner_only.
Proof.
  apply (complement_inserts_missing_bases TOK MODEL SEQ NER
           camphr_names_distinct ner_only).
  - apply distinct_NoDup. reflexivity.
  - reflexivity.
  - left. reflexivity.
Defined.

Lemma complement_noop_witness :
  _complement_trf_pipeline TOK MODEL SEQ NER complete = complete.
Proof.
  apply (complement_noop TOK MODEL SEQ NER camphr_names_distinct complete).
  - apply distinct_NoDup. reflexivity.
  - left. repeat split; reflexivity.
Defined.

Lemma correct_torch_one_way_witness :
  _correct_torch TOK MODEL SEQ NER no_name = set_torch no_name true
  /\ LangConfig.torch (lang (_correct_torch TOK MODEL SEQ NER no_name)) = true.
Proof.
  apply (proj1 (correct_torch_one_way TOK MODEL SEQ NER no_name)).
  reflexivity.
Defined.


Lemma create_lang_merges_meta_witness :
  exists meta' : dict value,
    create_lang torch_lang
    = Ok (TorchLanguage (LangConfig.optimizer torch_lang)
            (dict_set (kwargs_or_empty torch_lang) "meta" (VDict meta')))
    /\ meta'
       = dict_set [("author", VStr "camphr"); ("lang", VStr "xx")] "lang"
           (VStr (LangConfig.name torch_lang))
    /\ dict_get meta' "lang" = Some (VStr (LangConfig.name torch_lang))
    /\ (forall k, k <> "lang" ->
          dict_get meta' k
          = dict_get [("author", VStr "camphr"); ("lang", VStr "xx")] k)
    /\ (forall k,
          In k (keys [("author", VStr "camphr"); ("lang", VStr "xx")]) ->
          In k (keys meta'))
    /\ (forall k, k <> "meta" ->
          dict_get
            (dict_set (kwargs_or_empty torch_lang) "meta" (VDict meta')) k
          = dict_get (kwargs_or_empty torch_lang) k).
Proof.
  apply (create_lang_merges_meta torch_lang
           [("author", VStr "camphr"); ("lang", VStr "xx")]).
  - reflexivity.
  - reflexivity.
  - apply distinct_NoDup. reflexivity.
Defined.

Lemma resolution_frame_witness :
  (forall k, ~ In k (TRF_PIPES TOK MODEL SEQ NER) ->
     dict_get (pipeline ner_only_resolved) k = dict_get (pipeline ner_only) k)
  /\ filter (contains (keys (pipeline ner_only)))
       (keys (pipeline ner_only_resolved))
     = keys (pipeline ner_only)
  /\ wf_dict (pipeline ner_only_resolved).
Proof.
  apply (resolution_frame TOK MODEL SEQ NER get_biluo_labels get_labels pretty
           camphr_names_distinct ner_only ner_only_resolved).
  - apply distinct_NoDup. reflexivity.
  - reflexivity.
Defined.

Lemma resolution_of_sequence_classifier_witness :
  correct_nlp_config TOK MODEL SEQ NER get_biluo_labels get_labels pretty
    (NLPConfig.mk (VStr "demo") (LangConfig.mk "en" false [] None)
       [(SEQ, [(KEY, VStr "m1"); (LABELS, VList [VStr "pos"; VStr "neg"])])])
  = Ok (NLPConfig.mk (VStr "demo") (LangConfig.mk "en" true [] None)
          [(TOK, [(KEY, VStr "m1")]);
           (MODEL, [(KEY, VStr "m1")]);
           (SEQ, [(KEY, VStr "m1");
                  (LABELS, VList [VStr "pos"; VStr "neg"])])]).
Proof.
  apply (resolution_of_sequence_classifier TOK MODEL SEQ NER get_biluo_labels
           get_labels pretty camphr_names_distinct (VStr "demo") [] None).
  reflexivity.
Defined.

Lemma complement_idempotent_witness :
  _complement_trf_pipeline TOK MODEL SEQ NER
    (_complement_trf_pipeline TOK MODEL SEQ NER ner_only)
  = _complement_trf_pipeline TOK MODEL SEQ NER ner_only.
Proof.
  apply (complement_idempotent TOK MODEL SEQ NER camphr_names_distinct
           ner_only).
  apply distinct_NoDup. reflexivity.
Defined.

#[local] Abbreviation get_biluo := Camphr.get_biluo_labels.
#[local] Abbreviation factory := Camphr.create_pipe.

Lemma complement_trf_name_idempotent_witness :
  _complement_trf_name TOK MODEL SEQ NER pretty two_names_propagated
  = Ok two_names_propagated.
Proof.
  apply (complement_trf_name_idempotent TOK MODEL SEQ NER pretty two_names
           two_names_propagated).
  reflexivity.
Defined.

Lemma complement_trf_name_touches_identifier_only_witness :
  Forall2
    (fun kv kv' : string * Settings =>
       fst kv' = fst kv
       /\ (forall k, k <> KEY -> dict_get (snd kv') k = dict_get (snd kv) k)
       /\ (contains (TRF_PIPES TOK MODEL SEQ NER) (fst kv) = false ->
           snd kv' = snd kv))
    (pipeline two_names) (pipeline two_names_propagated)
  /\ lang two_names_propagated = lang two_names
  /\ NLPConfig.name two_names_propagated = NLPConfig.name two_names.
Proof.
  apply (complement_trf_name_touches_identifier_only TOK MODEL SEQ NER pretty
           two_names two_names_propagated).
  reflexivity.
Defined.

Lemma resolution_of_plain_pipeline_witness :
  correct_nlp_config TOK MODEL SEQ NER get_biluo get_labels pretty plain
  = Ok plain
  /\ _complement_trf_pipeline TOK MODEL SEQ NER plain = plain
  /\ _complement_trf_name TOK MODEL SEQ NER pretty plain = Ok plain
  /\ _correct_torch TOK MODEL SEQ NER plain = plain
  /\ _resolve_label SEQ NER get_biluo get_labels plain = Ok plain.
Proof.
  apply (resolution_of_plain_pipeline TOK MODEL SEQ NER get_biluo get_labels
           pretty plain).
  reflexivity.
Defined.

Lemma correct_trf_pipeline_result_witness :
  wf_dict (pipeline ner_only_corrected)
  /\ (intersects (keys (pipeline ner_only)) (TRF_TASKS SEQ NER) = true ->
      contains (keys (pipeline ner_only_corrected)) TOK = true
      /\ contains (keys (pipeline ner_only_corrected)) MODEL = true)
  /\ (intersects (keys (pipeline ner_only)) (TRF_PIPES TOK MODEL SEQ NER)
      = true ->
      LangConfig.torch (lang ner_only_corrected) = true
      /\ exists VAL : value,
           truthy VAL = true
           /\ forall k s, In (k, s) (pipeline ner_only_corrected) ->
                          In k (TRF_PIPES TOK MODEL SEQ NER) ->
                          getitem s KEY = VAL)
  /\ (intersects (keys (pipeline ner_only)) (TRF_PIPES TOK MODEL SEQ NER)
      = false -> ner_only_corrected = ner_only)
  /\ LangConfig.name (lang ner_only_corrected)
     = LangConfig.name (lang ner_only)
  /\ LangConfig.optimizer (lang ner_only_corrected)
     = LangConfig.optimizer (lang ner_only)
  /\ LangConfig.kwargs (lang ner_only_corrected)
     = LangConfig.kwargs (lang ner_only)
  /\ NLPConfig.name ner_only_corrected = NLPConfig.name ner_only.
Proof.
  apply (correct_trf_pipeline_result TOK MODEL SEQ NER pretty
           camphr_names_distinct ner_only ner_only_corrected).
  - apply distinct_NoDup. reflexivity.
  - reflexivity.
Defined.

Lemma correct_trf_pipeline_idempotent_witness :
  _correct_trf_pipeline TOK MODEL SEQ NER pretty ner_only_corrected
  = Ok ner_only_corrected.
Proof.
  apply (correct_trf_pipeline_idempotent TOK MODEL SEQ NER pretty
           camphr_names_distinct ner_only ner_only_corrected).
  - apply distinct_NoDup. reflexivity.
  - reflexivity.
Defined.


Lemma create_model_assembles_witness :
  exists cfg' : NLPConfig.t,
    correct_nlp_config TOK MODEL SEQ NER get_biluo get_labels pretty ner_only
    = Ok cfg'
    /\ Forall2
         (made_from (string * dict value) factory
            (Host.language ner_only_host))
         (pipeline cfg') (Host.pipeline ner_only_host)
    /\ List.length (Host.pipeline ner_only_host)
       = List.length (pipeline ner_only)
         + (if intersects (keys (pipeline ner_only)) (TRF_TASKS SEQ NER)
            then List.length (missing_bases TOK MODEL (pipeline ner_only))
            else 0)
    /\ Host.meta_name ner_only_host
       = match NLPConfig.name ner_only with
         | VStr name =>
             if String.eqb name EmptyString then None else Some name
         | _ => None
         end.
Proof.
  apply (create_model_assembles TOK MODEL SEQ NER get_biluo get_labels pretty
           camphr_names_distinct (string * dict value) factory ner_only
           ner_only_host).
  - apply distinct_NoDup. reflexivity.
  - reflexivity.
Defined.

Lemma create_model_torch_host_witness :
  exists kwargs meta : dict value,
    Host.language ner_only_host
    = TorchLanguage (LangConfig.optimizer (lang ner_only)) kwargs
    /\ dict_get kwargs "meta" = Some (VDict meta)
    /\ dict_get meta "lang" = Some (VStr (LangConfig.name (lang ner_only)))
    /\ (forall k, k <> "meta" ->
          dict_get kwargs k = dict_get (kwargs_or_empty (lang ner_only)) k).
Proof.
  apply (create_model_torch_host TOK MODEL SEQ NER get_biluo get_labels
           pretty camphr_names_distinct (string * dict value) factory
           ner_only ner_only_host).
  - apply distinct_NoDup. reflexivity.
  - reflexivity.
  - reflexivity.
Defined.

Lemma create_model_plain_host_witness :
  Host.language plain_host
  = blank (LangConfig.name (lang plain)) (kwargs_or_empty (lang plain))
  /\ Forall2
       (made_from (string * dict value) factory (Host.language plain_host))
       (pipeline plain) (Host.pipeline plain_host).
Proof.
  apply (create_model_plain_host TOK MODEL SEQ NER get_biluo get_labels
           pretty (string * dict value) factory plain plain_host).
  - reflexivity.
  - reflexivity.
  - reflexivity.
Defined.


(** ** Identifier propagation on camphr's own stage names *)

#[local] Abbreviation PIPES := (TRF_PIPES TOK MODEL SEQ NER).

Lemma propagation_last_declaration_wins_witness :
  exists (p1 p2 : Nodes.Stages) (k : string) (v : Nodes.Stage)
         (cfg' : Nodes.Config),
    Nodes.pipeline Nodes.two_names = p1 ++ (k, v) :: p2
    /\ Nodes.declares PIPES Nodes.resolve_root Nodes.two_names (k, v) = true
    /\ forallb
         (fun kv =>
            negb (Nodes.declares PIPES Nodes.resolve_root Nodes.two_names kv))
         p2
       = true
    /\ Nodes._complement_trf_name PIPES Nodes.render Nodes.resolve_root
         Nodes.two_names
       = Ok cfg'
    /\ Nodes.pipeline cfg'
       = map
           (Nodes.put_identifier PIPES
              (Nodes.identifier Nodes.resolve_root Nodes.two_names v))
           (Nodes.pipeline Nodes.two_names)
    /\ keys (Nodes.pipeline cfg') = keys (Nodes.pipeline Nodes.two_names)
    /\ (forall k' v',
          In (k', v') (Nodes.pipeline cfg') -> In k' PIPES ->
          exists d,
            v' = Some d
            /\ dict_get d KEY
               = Some
                   (Nodes.Plain
                      (Nodes.identifier Nodes.resolve_root Nodes.two_names
                         v)))
    /\ Nodes.lang cfg' = Nodes.lang Nodes.two_names
    /\ Nodes.name cfg' = Nodes.name Nodes.two_names.
Proof.
  apply (propagation_last_declaration_wins PIPES Nodes.render
           Nodes.resolve_root Nodes.two_names
           (TOK, Some [(KEY, Nodes.Plain (VStr "xlnet-base-cased"))])
           (SEQ,
            Some [(KEY, Nodes.Interpolation "${name}");
                  (LABELS, Nodes.Plain (VList [VStr "pos"; VStr "neg"]))])).
  - reflexivity.
  - simpl. tauto.
  - simpl. tauto.
  - reflexivity.
  - reflexivity.
  - simpl. discriminate.
Defined.

(** The pass, run on [Nodes.two_names]. *)
Lemma propagation_of_two_names :
  Nodes._complement_trf_name PIPES Nodes.render Nodes.resolve_root
    Nodes.two_names
  = Ok Nodes.two_names_propagated.
Proof. reflexivity. Qed.

(** C2, as stated, at [Nodes.two_names_broken]: the tokenizer and the
    classifier declare different non-empty identifiers, and the pass
    writes onto no stage: it raises the [KeyError] of the base model's
    interpolation. *)
Lemma propagation_stops_at_broken_reference :
  map (Nodes.declares PIPES Nodes.resolve_root Nodes.two_names_broken)
    (Nodes.pipeline Nodes.two_names_broken)
  = [true; false; true]
  /\ map
       (fun kv =>
          Nodes.identifier Nodes.resolve_root Nodes.two_names_broken (snd kv))
       (Nodes.pipeline Nodes.two_names_broken)
     = [VStr "xlnet-base-cased"; VNone; VStr "bert-base-cased"]
  /\ Nodes._complement_trf_name PIPES Nodes.render Nodes.resolve_root
       Nodes.two_names_broken
     = Err (KeyError "${model.name}").
Proof.
  split; [| split].
  - reflexivity.
  - reflexivity.
  - reflexivity.
Qed.

(** C3, at [Nodes.null_model], the config of [transformers_model:] with
    nothing under the name: the pipeline has an advanced-backend stage,
    no stage declares an identifier, and the pass raises the [TypeError]
    of [None[KEY]], not the [ValueError] of the missing identifier. *)
Theorem propagation_null_stage_type_error :
  intersects (keys (Nodes.pipeline Nodes.null_model)) PIPES = true
  /\ existsb (Nodes.declares PIPES Nodes.resolve_root Nodes.null_model)
       (Nodes.pipeline Nodes.null_model)
     = false
  /\ Nodes._complement_trf_name PIPES Nodes.render Nodes.resolve_root
       Nodes.null_model
     = Err (TypeError "'NoneType' object is not subscriptable").
Proof.
  split; [| split].
  - reflexivity.
  - reflexivity.
  - unfold Nodes._complement_trf_name, Nodes.null_model.
    cbn [Nodes.pipeline]. reflexivity.
Qed.

Lemma propagation_missing_key_reads_empty_witness :
  Nodes.getitem Nodes.resolve_root Nodes.two_names (Some []) KEY = Ok VNone
  /\ Nodes.declares PIPES Nodes.resolve_root Nodes.two_names
       (MODEL, Some [])
     = false
  /\ (forall VAL,
        Nodes.scan_trf_name PIPES Nodes.resolve_root Nodes.two_names
          (Nodes.pipeline Nodes.two_names) VAL
        = Nodes.scan_trf_name PIPES Nodes.resolve_root Nodes.two_names
            ([(TOK, Some [(KEY, Nodes.Plain (VStr "xlnet-base-cased"))])]
               ++ (MODEL,
                   Some (dict_set [] KEY (Nodes.Plain (VStr EmptyString))))
               :: [(SEQ,
                    Some [(KEY, Nodes.Interpolation "${name}");
                          (LABELS,
                           Nodes.Plain (VList [VStr "pos"; VStr "neg"]))]);
                   ("sentencizer", None)])
            VAL)
  /\ (Nodes.all_well_given PIPES Nodes.resolve_root Nodes.two_names
        (Nodes.pipeline Nodes.two_names)
      = true ->
      (existsb (Nodes.declares PIPES Nodes.resolve_root Nodes.two_names)
         (Nodes.pipeline Nodes.two_names)
       = true ->
       exists cfg',
         Nodes._complement_trf_name PIPES Nodes.render Nodes.resolve_root
           Nodes.two_names
         = Ok cfg')
      /\ (existsb (Nodes.declares PIPES Nodes.resolve_root Nodes.two_names)
            (Nodes.pipeline Nodes.two_names)
          = false ->
          Nodes._complement_trf_name PIPES Nodes.render Nodes.resolve_root
            Nodes.two_names
          = Err (ValueError
                   (missing_name_header
                    ++ Nodes.render (Nodes.pipeline Nodes.two_names))%string)))
  /\ (forall e,
        Nodes._complement_trf_name PIPES Nodes.render Nodes.resolve_root
          Nodes.two_names
        = Err e ->
        e = ValueError
              (missing_name_header
               ++ Nodes.render (Nodes.pipeline Nodes.two_names))%string
        \/ exists k' v',
             In (k', v')
               ([(TOK, Some [(KEY, Nodes.Plain (VStr "xlnet-base-cased"))])]
                  ++ [(SEQ,
                       Some [(KEY, Nodes.Interpolation "${name}");
                             (LABELS,
                              Nodes.Plain (VList [VStr "pos"; VStr "neg"]))]);
                      ("sentencizer", None)])
             /\ In k' PIPES
             /\ Nodes.getitem Nodes.resolve_root Nodes.two_names v' KEY
                = Err e).
Proof.
  apply (propagation_missing_key_reads_empty PIPES Nodes.render
           Nodes.resolve_root Nodes.two_names
           [(TOK, Some [(KEY, Nodes.Plain (VStr "xlnet-base-cased"))])]
           [(SEQ,
             Some [(KEY, Nodes.Interpolation "${name}");
                   (LABELS, Nodes.Plain (VList [VStr "pos"; VStr "neg"]))]);
            ("sentencizer", None)]
           MODEL []).
  - reflexivity.
  - simpl. tauto.
  - reflexivity.
Defined.

(** C10, as stated, at [Nodes.broken_reference]: the tokenizer's settings
    mapping has no entry under the key, and the pass raises a [KeyError],
    that of the base model's interpolation. *)
Lemma propagation_key_lookup_error :
  In (TOK, Some []) (Nodes.pipeline Nodes.broken_reference)
  /\ In TOK PIPES
  /\ dict_get ([] : Nodes.Mapping) KEY = None
  /\ Nodes._complement_trf_name PIPES Nodes.render Nodes.resolve_root
       Nodes.broken_reference
     = Err (KeyError "${model.name}").
Proof.
  split; [| split; [| split]].
  - simpl. tauto.
  - simpl. tauto.
  - reflexivity.
  - reflexivity.
Qed.

Lemma propagation_first_unreadable_stage_witness :
  exists e,
    Nodes._complement_trf_name PIPES Nodes.render Nodes.resolve_root
      Nodes.two_names_broken
    = Err e
    /\ Nodes.getitem Nodes.resolve_root Nodes.two_names_broken
         (Some [(KEY, Nodes.Interpolation "${model.name}")]) KEY
       = Err e
    /\ ((Some [(KEY, Nodes.Interpolation "${model.name}")] = None
         /\ e = TypeError "'NoneType' object is not subscriptable")
        \/ (exists d text,
              Some [(KEY, Nodes.Interpolation "${model.name}")] = Some d
              /\ dict_get d KEY = Some (Nodes.Interpolation text)
              /\ Nodes.resolve_root Nodes.two_names_broken text = None
              /\ e = KeyError text)
        \/ (exists d,
              Some [(KEY, Nodes.Interpolation "${model.name}")] = Some d
              /\ dict_get d KEY = Some Nodes.Mandatory
              /\ e = Raised "MissingMandatoryValue")).
Proof.
  apply (propagation_first_unreadable_stage PIPES Nodes.render
           Nodes.resolve_root Nodes.two_names_broken
           [(TOK, Some [(KEY, Nodes.Plain (VStr "xlnet-base-cased"))])]
           [(SEQ,
             Some [(KEY, Nodes.Interpolation "${name}");
                   (LABELS, Nodes.Plain (VList [VStr "pos"; VStr "neg"]))])]
           MODEL (Some [(KEY, Nodes.Interpolation "${model.name}")])).
  - reflexivity.
  - reflexivity.
  - simpl. tauto.
  - reflexivity.
Defined.

Lemma propagation_missing_identifier_witness :
  Nodes._complement_trf_name PIPES Nodes.render Nodes.resolve_root
    Nodes.no_name
  = Err (ValueError
           (missing_name_header
            ++ Nodes.render (Nodes.pipeline Nodes.no_name))%string).
Proof.
  apply (proj1 (propagation_missing_identifier PIPES Nodes.render
                  Nodes.resolve_root Nodes.no_name)).
  repeat split; reflexivity.
Defined.
